(** * gl3w-mx: the loader generator [gl3w_gen.py] and the loader it emits

    The script reads [include/GL/glcorearb.h], collects the names of the
    declared entry points, and writes [include/GL/gl3w.h] and [src/gl3w.c].
    This development embeds

    - the extraction step (the regular expression [p], the line loop and
      [procs.sort()]),
    - the emission step (the two [with open(...)] blocks and [proc_t]),
    - the C functions contained in the emitted [src/gl3w.c]
      ([setup_context], [gl3wInit], [gl3wShutdown], [gl3wIsSupported]).

    Characters are bytes ([ascii]); the classes [\s] and [\w] are the ones
    the [re] module uses on byte strings, and a text is what the file
    holds. This is the script under Python 2. Under Python 3 the file is
    decoded, carriage returns end lines too, and the classes of the [str]
    pattern are wider; the two agree on the texts of [plain_text] (7-bit
    characters, no carriage return, none of 0x1c to 0x1f), and statements
    that depend on the difference carry that condition.

    The emitted C is embedded once a platform section is chosen:
    [Loader] is the part that is the same in all three, in a run whose
    [libgl_open] has returned; [Platform] holds the Windows and the dlopen
    section, [Apple] the Apple section, whose [libgl_open] can abort. *)

From Stdlib Require Import ZArith Ascii.
From stdpp Require Import base option list sorting strings gmap.

(** ** Character classes of the pattern *)

Module Re.

(** [\s] on byte strings: [ \t\n\r\f\v]. A [str] pattern also takes 0x1c
    to 0x1f and whitespace beyond 7 bits. *)
Definition is_space (c : ascii) : bool :=
  match c with
  | " " | "009" | "010" | "011" | "012" | "013" => true
  | _ => false
  end%char.

(** [\w] on byte strings: [a-zA-Z0-9_]. A [str] pattern also takes letters
    and digits beyond 7 bits. *)
Definition is_word (c : ascii) : bool :=
  let n := nat_of_ascii c in
  ((97 <=? n) && (n <=? 122) || (65 <=? n) && (n <=? 90)
   || (48 <=? n) && (n <=? 57) || (n =? 95))%nat.

(** [.] without DOTALL: anything but a line feed. *)
Definition is_dot (c : ascii) : bool :=
  negb (Ascii.eqb c "010"%char).

(** A literal at the start of the subject; the rest on success. *)
Fixpoint literal (lit s : string) : option string :=
  match lit, s with
  | EmptyString, _ => Some s
  | String a lit', String b s' =>
      if Ascii.eqb a b then literal lit' s' else None
  | String _ _, EmptyString => None
  end.

(** The longest run of characters of one class, and what follows it. *)
Fixpoint span (cls : ascii → bool) (s : string) : string * string :=
  match s with
  | EmptyString => (EmptyString, EmptyString)
  | String c s' =>
      if cls c
      then let '(run, rest) := span cls s' in (String c run, rest)
      else (EmptyString, s)
  end.

Definition nonempty (s : string) : bool :=
  match s with EmptyString => false | String _ _ => true end.

(** Every character of the string is of the class. *)
Fixpoint all (cls : ascii → bool) (s : string) : bool :=
  match s with
  | EmptyString => true
  | String c s' => cls c && all cls s'
  end.

(** The string begins with a character of the class. *)
Definition starts_with (cls : ascii → bool) (s : string) : bool :=
  match s with
  | EmptyString => false
  | String c _ => cls c
  end.

(** [APIENTRY\s+(\w+)] at the start of the subject. Both repetitions are
    greedy; the two classes are disjoint and nothing follows the group, so
    the first attempt of each is the only one that can succeed. The result
    is group 1. *)
Definition entry (s : string) : option string :=
  match literal "APIENTRY" s with
  | None => None
  | Some s1 =>
      let '(blank, s2) := span is_space s1 in
      let '(name, _) := span is_word s2 in
      if nonempty blank && nonempty name then Some name else None
  end.

(** [.*] followed by [entry]: the repetition takes a character when it
    can and the rest matches, and otherwise hands over to [entry] at the
    current position (greedy, with backtracking). *)
Fixpoint dotstar_entry (s : string) : option string :=
  match s with
  | EmptyString => entry s
  | String c s' =>
      if is_dot c
      then match dotstar_entry s' with
           | Some g => Some g
           | None => entry s
           end
      else entry s
  end.

End Re.

(** ** Extraction *)

(** [p = re.compile(r'GLAPI.*APIENTRY\s+(\w+)')], used as
    [m = p.match(line)] and [m.group(1)]: [None] when the line does not
    match, the captured name otherwise. *)
Definition p_match (line : string) : option string :=
  match Re.literal "GLAPI" line with
  | Some rest => Re.dotstar_entry rest
  | None => None
  end.

(** [for line in f]: the lines of the file, each with its terminating line
    feed, the last one possibly without. Python 3 also ends a line at a
    carriage return and hands it over as a line feed; on a text without
    carriage returns there is no difference. *)
Fixpoint readlines (text : string) : list string :=
  match text with
  | EmptyString => []
  | String c text' =>
      if Ascii.eqb c "010"%char then String c EmptyString :: readlines text'
      else match readlines text' with
           | [] => [String c EmptyString]
           | l :: ls => String c l :: ls
           end
  end.

(** The loop body: [if m: procs.append(m.group(1))]. *)
Definition collect (lines : list string) : list string :=
  foldl (λ acc line,
           match p_match line with
           | Some name => acc ++ [name]
           | None => acc
           end) [] lines.

(** [procs.sort()]: strings compare byte by byte, a proper prefix first. *)
Definition sort (l : list string) : list string :=
  merge_sort String.le l.

(** The value of [procs] after line 121, for the lines of the input. *)
Definition procs_of_lines (lines : list string) : list string :=
  sort (collect lines).

Definition procs (text : string) : list string :=
  procs_of_lines (readlines text).

(** ** Emission *)

Definition nl : string := String "010"%char EmptyString.
Definition dq : string := String "034"%char EmptyString.

(** [proc.upper()] on bytes: the lower-case letters move to upper case.
    On 7-bit names [str.upper()] of Python 3 is the same. *)
Definition upper_char (c : ascii) : ascii :=
  let n := nat_of_ascii c in
  if ((97 <=? n) && (n <=? 122))%nat then ascii_of_nat (n - 32) else c.

Fixpoint upper (s : string) : string :=
  match s with
  | EmptyString => EmptyString
  | String c s' => String (upper_char c) (upper s')
  end.

(** [proc[2:]]: the string without its first two characters, empty when it
    has at most two. *)
Definition slice2 (s : string) : string :=
  match s with
  | String _ (String _ s') => s'
  | _ => EmptyString
  end.

Fixpoint spaces (n : nat) : string :=
  match n with
  | O => EmptyString
  | S n' => String " "%char (spaces n')
  end.

(** The format specification [: <width]: left-aligned, filled with spaces
    up to [width], never truncated. *)
Definition ljust (width : nat) (s : string) : string :=
  s +:+ spaces (width - String.length s).

(** The dictionary [proc_t] returns, with its three keys. *)
Record proc_names : Type := { p : string; p_s : string; p_t : string }.

Definition proc_t (proc : string) : proc_names :=
  {| p := proc;
     p_s := "gl3w" +:+ slice2 proc;
     p_t := "PFN" +:+ upper proc +:+ "PROC" |}.

(** The licence comment written first into both files. *)
Definition UNLICENSE : string :=
  "/*

    This file was generated with gl3w_gen.py, part of gl3w
    (hosted at https://github.com/skaslev/gl3w)

    This is free and unencumbered software released into the public domain.

    Anyone is free to copy, modify, publish, use, compile, sell, or
    distribute this software, either in source code form or as a compiled
    binary, for any purpose, commercial or non-commercial, and by any
    means.

    In jurisdictions that recognize copyright laws, the author or authors
    of this software dedicate any and all copyright interest in the
    software to the public domain. We make this dedication for the benefit
    of the public at large and to the detriment of our heirs and
    successors. We intend this dedication to be an overt act of
    relinquishment in perpetuity of all present and future rights to this
    software under copyright law.

    THE SOFTWARE IS PROVIDED " +:+ dq +:+
  "AS IS" +:+ dq +:+
  ", WITHOUT WARRANTY OF ANY KIND,
    EXPRESS OR IMPLIED, INCLUDING BUT NOT LIMITED TO THE WARRANTIES OF
    MERCHANTABILITY, FITNESS FOR A PARTICULAR PURPOSE AND NONINFRINGEMENT.
    IN NO EVENT SHALL THE AUTHORS BE LIABLE FOR ANY CLAIM, DAMAGES OR
    OTHER LIABILITY, WHETHER IN AN ACTION OF CONTRACT, TORT OR OTHERWISE,
    ARISING FROM, OUT OF OR IN CONNECTION WITH THE SOFTWARE OR THE USE OR
    OTHER DEALINGS IN THE SOFTWARE.

*/

".

(** The header up to and including the two version members of the struct. *)
Definition gl3w_h_head : string :=
  "#ifndef __gl3w_h_
#define __gl3w_h_

#include <GL/glcorearb.h>

#ifndef __gl_h_
#define __gl_h_
#endif

#include <string.h>

#ifdef __cplusplus
extern " +:+ dq +:+
  "C" +:+ dq +:+
  " {
#endif

typedef struct _GL3WContext {
    int major;
    int minor;
".

(** The end of the struct, written after the member lines. *)
Definition gl3w_h_mid : string :=
  "
} GL3WContext;

".

(** The rest of the header, written after the macro lines. *)
Definition gl3w_h_tail : string :=
  "

typedef void (*GL3WglProc)(void);

/* gl3w api */
int gl3wInit(GL3WContext *context);
void gl3wShutdown(GL3WContext *context);
int gl3wIsSupported(const GL3WContext *context, int major, int minor);
GL3WglProc gl3wGetProcAddress(const char *proc);

#ifdef __cplusplus
}
#endif

#endif
".

(** The three platform sections of the source file. *)
Definition gl3w_c_head : string :=
  "#include <GL/gl3w.h>

#ifdef _WIN32

#define WIN32_LEAN_AND_MEAN 1
#include <windows.h>

static HMODULE libgl;

static void libgl_open(void) {
    libgl = LoadLibraryA(" +:+ dq +:+
  "opengl32.dll" +:+ dq +:+
  ");
}

static void libgl_close(void) {
    FreeLibrary(libgl);
}

static GL3WglProc libgl_sym(const char *proc) {
    GL3WglProc res;

    res = (GL3WglProc)wglGetProcAddress(proc);
    if (!res)
        res = (GL3WglProc)GetProcAddress(libgl, proc);
    return res;
}

#elif defined(__APPLE__) || defined(__APPLE_CC__)

#include <Carbon/Carbon.h>

static CFBundleRef bundle;
static CFURLRef bundleURL;

static void libgl_open(void) {
    bundleURL = CFURLCreateWithFileSystemPath(kCFAllocatorDefault,
        CFSTR(" +:+ dq +:+
  "/System/Library/Frameworks/OpenGL.framework" +:+ dq +:+
  "),
        kCFURLPOSIXPathStyle, true);

    bundle = CFBundleCreate(kCFAllocatorDefault, bundleURL);
    assert(bundle != NULL);
}

static void libgl_close(void) {
    CFRelease(bundle);
    CFRelease(bundleURL);
}

static GL3WglProc libgl_sym(const char *proc) {
    GL3WglProc res;

    CFStringRef procName = CFStringCreateWithCString(kCFAllocatorDefault, proc,
        kCFStringEncodingASCII);
    res = (GL3WglProc)CFBundleGetFunctionPointerForName(bundle, procName);
    CFRelease(procName);
    return res;
}

#else

#include <dlfcn.h>
#include <GL/glx.h>

static void *libgl;

static void libgl_open(void) {
    libgl = dlopen(" +:+ dq +:+
  "libGL.so.1" +:+ dq +:+
  ", RTLD_LAZY | RTLD_GLOBAL);
}

static void libgl_close(void) {
    dlclose(libgl);
}

static GL3WglProc libgl_sym(const char *proc) {
    GL3WglProc res;

    res = (GL3WglProc)glXGetProcAddress((const GLubyte *)proc);
    if (!res)
        res = (GL3WglProc)dlsym(libgl, proc);
    return res;
}

#endif

".

(** The opening of setup_context. *)
Definition gl3w_c_setup : string :=
  "
static int setup_context(GL3WContext *p) {
".

(** The rest of setup_context and the four functions of the interface. *)
Definition gl3w_c_tail : string :=
  "

    if (!p->gl3wGetIntegerv)
        return 0;

    p->gl3wGetIntegerv(GL_MAJOR_VERSION, &p->major);
    p->gl3wGetIntegerv(GL_MINOR_VERSION, &p->minor);

    if (p->major < 3)
        return 0;

    return 1;
}

int gl3wInit(GL3WContext *context) {
    int res;
    libgl_open();
    memset(context, 0, sizeof(*context));
    res = setup_context(context);
    return res;
}

void gl3wShutdown(GL3WContext *context) {
    libgl_close();
    memset(context, 0, sizeof(*context));
}

int gl3wIsSupported(const GL3WContext *context, int major, int minor) {
    if (context->major < 3)
        return 0;

    if (context->major == major)
        return context->minor >= minor;
    else
        return context->major >= major;
}

GL3WglProc gl3wGetProcAddress(const char *proc) {
    return libgl_sym(proc);
}
".

(** ['    {0[p_t]: <52} {0[p_s]};\n'.format(proc_t(proc))] *)
Definition h_member (proc : string) : string :=
  let d := proc_t proc in
  "    " +:+ ljust 52 (p_t d) +:+ " " +:+ p_s d +:+ ";" +:+ nl.

(** ['#define {0[p]: <45} ((GL3W_CONTEXT_METHOD)->{0[p_s]})\n'.format(...)] *)
Definition h_macro (proc : string) : string :=
  let d := proc_t proc in
  "#define " +:+ ljust 45 (p d) +:+ " ((GL3W_CONTEXT_METHOD)->" +:+ p_s d
  +:+ ")" +:+ nl.

(** The line of [setup_context] that resolves one member. *)
Definition c_resolve (proc : string) : string :=
  let d := proc_t proc in
  "    p->" +:+ p_s d +:+ " = (" +:+ p_t d +:+ ")libgl_sym(" +:+ dq +:+ p d
  +:+ dq +:+ ");" +:+ nl.

(** [for proc in procs: f.write(...)]: the lines one after the other. *)
Definition write_each (line : string → string) (l : list string) : string :=
  foldr (λ proc rest, line proc +:+ rest) EmptyString l.

(** Everything written to [include/GL/gl3w.h]. *)
Definition gl3w_h (l : list string) : string :=
  UNLICENSE +:+ gl3w_h_head +:+ write_each h_member l +:+ gl3w_h_mid
  +:+ write_each h_macro l +:+ gl3w_h_tail.

(** Everything written to [src/gl3w.c]. *)
Definition gl3w_c (l : list string) : string :=
  UNLICENSE +:+ gl3w_c_head +:+ gl3w_c_setup +:+ write_each c_resolve l
  +:+ gl3w_c_tail.

(** ** The script as a whole *)

Module Script.

(** What the script sees of its surroundings: the directories and the
    regular files below the working directory, and the lines printed. *)
Record world : Type := World {
  dirs : gset string;
  files : gmap string string;
  stdout : list string
}.

Definition is_dir (w : world) (path : string) : bool :=
  bool_decide (path ∈ dirs w).

Definition is_file (w : world) (path : string) : bool :=
  bool_decide (is_Some (files w !! path)).

(** [os.path.exists] *)
Definition path_exists (w : world) (path : string) : bool :=
  is_dir w path || is_file w path.

(** [print(...)] *)
Definition print (line : string) (w : world) : world :=
  World (dirs w) (files w) (stdout w ++ [line]).

(** [os.makedirs(path)] for a path that does not exist and whose proper
    ancestors are [ancestors]; it raises when one of them is a regular
    file. *)
Definition makedirs (ancestors : list string) (path : string) (w : world)
  : option world :=
  if existsb (is_file w) ancestors then None
  else Some (World (list_to_set (path :: ancestors) ∪ dirs w) (files w)
               (stdout w)).

(** [with open(path, 'wb') as f: f.write(...)] with [dir] the directory
    of [path]: it raises unless [dir] is a directory and [path] is not
    one. *)
Definition write_file (dir path content : string) (w : world)
  : option world :=
  if is_dir w dir && negb (is_dir w path)
  then Some (World (dirs w) (<[path := content]> (files w)) (stdout w))
  else None.

(** [with open(path, 'r') as f]: the content of a regular file. Python 3
    decodes it and raises on bytes the encoding of the locale does not
    have; a text of 7-bit characters decodes to itself. *)
Definition read_file (path : string) (w : world) : option string :=
  if is_dir w path then None else files w !! path.

Definition glcorearb_h : string := "include/GL/glcorearb.h".
Definition gl3w_h_path : string := "include/GL/gl3w.h".
Definition gl3w_c_path : string := "src/gl3w.c".

(** One run of [gl3w_gen.py]. [web] is the body the registry serves for
    [glcorearb.h], [None] when [urlopen] raises. The result is [None] when
    the run ends in an exception. *)
Definition run (web : option string) (w : world) : option world :=
  w ← (if path_exists w "include/GL" then Some w
       else makedirs ["include"] "include/GL" w);
  w ← (if path_exists w "src" then Some w else makedirs [] "src" w);
  w ← (if path_exists w glcorearb_h
       then Some (print "Reusing glcorearb.h from include/GL..." w)
       else
         let w := print "Downloading glcorearb.h to include/GL..." w in
         body ← web;
         write_file "include/GL" glcorearb_h body w);
  let w := print "Parsing glcorearb.h header..." w in
  text ← read_file glcorearb_h w;
  let l := procs text in
  let w := print "Generating gl3w.h in include/GL..." w in
  w ← write_file "include/GL" gl3w_h_path (gl3w_h l) w;
  let w := print "Generating gl3w.c in src..." w in
  write_file "src" gl3w_c_path (gl3w_c l) w.

(** The state the script leaves behind for the input [text]: both output
    directories, the input file, and the two files written from it. *)
Definition generated (text : string) (w : world) : Prop :=
  is_dir w "include/GL" = true ∧ is_dir w "src" = true
  ∧ is_dir w glcorearb_h = false ∧ is_dir w gl3w_h_path = false
  ∧ is_dir w gl3w_c_path = false
  ∧ files w !! glcorearb_h = Some text
  ∧ files w !! gl3w_h_path = Some (gl3w_h (procs text))
  ∧ files w !! gl3w_c_path = Some (gl3w_c (procs text)).

(** What a run prints when [glcorearb.h] is already there. *)
Definition rerun_lines : list string :=
  ["Reusing glcorearb.h from include/GL..."; "Parsing glcorearb.h header...";
   "Generating gl3w.h in include/GL..."; "Generating gl3w.c in src..."].

End Script.

(** ** The functions of the emitted [src/gl3w.c] *)

Module Loader.

Local Open Scope Z_scope.

(** What the loader does to the process, in the order it does it. *)
Inductive event : Type :=
| LibOpen
| LibClose
| Sym (name : string)
| GetIntegerv (fn pname : Z).

#[global] Instance event_eq_dec : EqDecision event.
Proof. solve_decision. Defined.

(** [struct _GL3WContext]: the two version members and one pointer member
    per declaration, by member name. Integers and addresses are [Z]; the
    null pointer is 0. *)
Record GL3WContext : Type := Context {
  major : Z;
  minor : Z;
  members : gmap string Z
}.

(** A C function of the file: it extends the trace of events, and it is
    stuck ([None]) when it names a member the struct does not have. *)
Definition M (A : Type) : Type := list event → option (A * list event).

#[global] Instance M_ret : MRet M := λ A x t, Some (x, t).
#[global] Instance M_bind : MBind M := λ A B k m t,
  match m t with
  | Some (x, t') => k x t'
  | None => None
  end.

Definition emit (e : event) : M unit := λ t, Some ((), t ++ [e]).
Definition stuck {A} : M A := λ _, None.

Section Generated.

(** The declarations the file was generated for. *)
Variable procs : list string.
(** The address the platform section finds for a name, 0 for none. *)
Variable platform_sym : string → Z.
(** The function behind an address, called as [fn(pname, data)]: the
    content of [*data] after the call, from its content before. *)
Variable get_integerv : Z → Z → Z → Z.
(** The two enumerants of [glcorearb.h]. *)
Variables GL_MAJOR_VERSION GL_MINOR_VERSION : Z.

(** The three functions of the platform section, as the rest of the file
    sees them. [libgl_open] is the call in a run where it returns: in the
    Windows and the dlopen section it has no other way; in the Apple
    section it ends in an [assert], see [Apple.libgl_open] and
    [Apple.gl3wInit]. *)
Definition libgl_open : M unit := emit LibOpen.
Definition libgl_close : M unit := emit LibClose.
Definition libgl_sym (proc : string) : M Z :=
  emit (Sym proc);; mret (platform_sym proc).

(** The names of the pointer members, in the order of the struct. *)
Definition member_names : list string :=
  (λ proc, p_s (proc_t proc)) <$> procs.

(** [memset(context, 0, sizeof( *context))]: every member is zero,
    whatever the record held. *)
Definition memset0 (context : GL3WContext) : GL3WContext :=
  Context 0 0 (list_to_map ((λ name, (name, 0)) <$> member_names)).

(** [p->name]. The members are kept by name, so a struct that repeats a
    member, which a C compiler refuses, is not told apart here; the
    statements that need one member per declaration assume
    [NoDup member_names]. *)
Definition get_member (name : string) (ctx : GL3WContext) : M Z :=
  match members ctx !! name with
  | Some v => mret v
  | None => stuck
  end.

(** [p->name = v] *)
Definition set_member (name : string) (v : Z) (ctx : GL3WContext)
  : GL3WContext :=
  Context (major ctx) (minor ctx) (<[name := v]> (members ctx)).

(** [p->fn(pname, &p->major)] and the same for [minor]. *)
Definition call_major (fn pname : Z) (ctx : GL3WContext) : M GL3WContext :=
  emit (GetIntegerv fn pname);;
  mret (Context (get_integerv fn pname (major ctx)) (minor ctx)
          (members ctx)).

Definition call_minor (fn pname : Z) (ctx : GL3WContext) : M GL3WContext :=
  emit (GetIntegerv fn pname);;
  mret (Context (major ctx) (get_integerv fn pname (minor ctx))
          (members ctx)).

(** The emitted lines [p->{p_s} = ({p_t})libgl_sym("{p}");], in order. *)
Fixpoint resolve (l : list string) (ctx : GL3WContext) : M GL3WContext :=
  match l with
  | [] => mret ctx
  | proc :: l' =>
      v ← libgl_sym proc;
      resolve l' (set_member (p_s (proc_t proc)) v ctx)
  end.

Definition setup_context (ctx : GL3WContext) : M (Z * GL3WContext) :=
  ctx ← resolve procs ctx;
  fn ← get_member "gl3wGetIntegerv" ctx;
  if fn =? 0 then mret (0, ctx)
  else
    ctx ← call_major fn GL_MAJOR_VERSION ctx;
    fn ← get_member "gl3wGetIntegerv" ctx;
    ctx ← call_minor fn GL_MINOR_VERSION ctx;
    if major ctx <? 3 then mret (0, ctx)
    else mret (1, ctx).

Definition gl3wInit (context : GL3WContext) : M (Z * GL3WContext) :=
  libgl_open;;
  res ← setup_context (memset0 context);
  mret res.

Definition gl3wShutdown (context : GL3WContext) : M GL3WContext :=
  libgl_close;;
  mret (memset0 context).

Definition gl3wIsSupported (context : GL3WContext) (major' minor' : Z) : Z :=
  if major context <? 3 then 0
  else if major context =? major' then Z.b2z (minor context >=? minor')
  else Z.b2z (major context >=? major').

Definition gl3wGetProcAddress (proc : string) : M Z :=
  libgl_sym proc.

(** One resolution line, as a change of the pointer members. *)
Definition assign (m : gmap string Z) (proc : string) : gmap string Z :=
  <[p_s (proc_t proc) := platform_sym proc]> m.

(** The pointer members once all resolution lines have run on a zeroed
    record. *)
Definition resolved : gmap string Z :=
  foldl assign (members (memset0 (Context 0 0 ∅))) procs.

(** What [gl3wInit] does before it looks at the version pointer. *)
Definition init_trace : list event := LibOpen :: (Sym <$> procs).

End Generated.

(** [gl3wIsSupported] in the words of the interface description: false
    below version 3; otherwise true when the majors agree and the resolved
    minor is at least the requested one, true when the resolved major is
    greater, and false otherwise. *)
Definition is_supported_stated (major minor major' minor' : Z) : bool :=
  if major <? 3 then false
  else if (major =? major') && (minor' <=? minor) then true
  else if major' <? major then true
  else false.

(** Library handles acquired and not released along a trace. *)
Definition handles (t : list event) : Z :=
  Z.of_nat (length (filter (λ e, e = LibOpen) t))
  - Z.of_nat (length (filter (λ e, e = LibClose) t)).

End Loader.

Definition glClear_line : string :=
  "GLAPI void APIENTRY glClear (GLbitfield mask);".

(** ** A small instance

    Two declarations, the enumerants as [glcorearb.h] defines them, a
    platform on which nothing resolves, and one with a 4.5 context. *)

Definition two_procs : list string := ["glClear"; "glGetIntegerv"].

Definition GL_MAJOR_VERSION_821B : Z := 33307.
Definition GL_MINOR_VERSION_821C : Z := 33308.

Definition nothing_resolves (name : string) : Z := 0.

Definition all_resolve (name : string) : Z :=
  if decide (name = "glGetIntegerv") then 4096%Z else 8192%Z.

Definition version_4_5 (fn pname data : Z) : Z :=
  if (pname =? GL_MAJOR_VERSION_821B)%Z then 4%Z
  else if (pname =? GL_MINOR_VERSION_821C)%Z then 5%Z
  else data.

Definition stale : Loader.GL3WContext :=
  Loader.Context 9 9 {[ "gl3wClear" := 1%Z ]}.

(** More of the instance: lines of input, two file trees, and the record
    and trace [gl3wInit] leaves on the 4.5 platform. *)

Definition two_lines : list string :=
  ["/* glcorearb.h */"; "GLAPI void APIENTRY glGetIntegerv (GLenum pname);";
   glClear_line].

Definition input_only : Script.world :=
  Script.World ∅ {[ Script.glcorearb_h := glClear_line ]} [].

Definition readme_only : Script.world :=
  Script.World ∅ {[ "README" := "gl3w" ]} [].

Definition context_4_5 : Loader.GL3WContext :=
  Loader.Context 4 5 {[ "gl3wClear" := 8192%Z; "gl3wGetIntegerv" := 4096%Z ]}.

Definition trace_4_5 : list Loader.event :=
  [Loader.LibOpen; Loader.Sym "glClear"; Loader.Sym "glGetIntegerv";
   Loader.GetIntegerv 4096 GL_MAJOR_VERSION_821B;
   Loader.GetIntegerv 4096 GL_MINOR_VERSION_821C].

(** ** Words for the statements about extraction and emission *)

(** A character that Python 2 and Python 3 read alike: a 7-bit character,
    and none of the four separators 0x1c to 0x1f, which only a [str]
    pattern counts as whitespace. On such characters the classes of [Re]
    are the classes of the pattern under both. *)
Definition plain_char (c : ascii) : bool :=
  let n := nat_of_ascii c in
  ((n <? 128) && negb ((28 <=? n) && (n <=? 31)))%nat.

(** A line of such characters. *)
Definition plain (s : string) : bool := Re.all plain_char s.

(** A text that [open(path, 'r')] hands over as it is under both: such
    characters only (every ASCII-compatible encoding decodes them to
    themselves), and no carriage return for the newline translation to
    rewrite. On such a text [readlines] is the iteration over the file. *)
Definition plain_text (s : string) : bool :=
  Re.all (λ c, plain_char c && negb (Ascii.eqb c "013"%char)) s.

(** [sub] occurs in [s]. *)
Definition contains (s sub : string) : Prop :=
  ∃ before after, s = before +:+ sub +:+ after.

(** The lines put back one after the other. *)
Definition unlines (lines : list string) : string :=
  foldr String.append EmptyString lines.

(** A line as the loop sees it: not empty, and with no line feed except as
    its last character. *)
Fixpoint line_shape (s : string) : bool :=
  match s with
  | EmptyString => false
  | String c EmptyString => true
  | String c s' => Re.is_dot c && line_shape s'
  end.

(** The name carries the two-character prefix of the API. *)
Definition gl_prefixed (proc : string) : bool :=
  match proc with
  | String a (String b _) => Ascii.eqb a "g"%char && Ascii.eqb b "l"%char
  | _ => false
  end.

(** ** The steps of the script *)

Module ScriptSteps.
Import Script.

(** [if not os.path.exists(path): os.makedirs(path)] *)
Definition ensure_dir (ancestors : list string) (path : string) (w : world)
  : option world :=
  if path_exists w path then Some w else makedirs ancestors path w.

(** Lines 103 to 110: the input file is fetched unless something stands at
    its path. *)
Definition fetch (web : option string) (w : world) : option world :=
  if path_exists w glcorearb_h
  then Some (print "Reusing glcorearb.h from include/GL..." w)
  else
    let w := print "Downloading glcorearb.h to include/GL..." w in
    body ← web;
    write_file "include/GL" glcorearb_h body w.

(** Lines 112 to 313: the input is read and the two files are written. *)
Definition generate (w : world) : option world :=
  let w := print "Parsing glcorearb.h header..." w in
  text ← read_file glcorearb_h w;
  let l := procs text in
  let w := print "Generating gl3w.h in include/GL..." w in
  w ← write_file "include/GL" gl3w_h_path (gl3w_h l) w;
  let w := print "Generating gl3w.c in src..." w in
  write_file "src" gl3w_c_path (gl3w_c l) w.

(** When a run ends normally. *)
Definition can_run (web : option string) (w : world) : Prop :=
  (is_dir w "include/GL" = true
   ∨ (path_exists w "include/GL" = false ∧ is_file w "include" = false))
  ∧ (is_dir w "src" = true ∨ path_exists w "src" = false)
  ∧ is_dir w glcorearb_h = false
  ∧ (is_file w glcorearb_h = true ∨ is_Some web)
  ∧ is_dir w gl3w_h_path = false
  ∧ is_dir w gl3w_c_path = false.

End ScriptSteps.

(** ** The platform sections of the emitted [src/gl3w.c] *)

Module Platform.

Local Open Scope Z_scope.

(** The calls the two sections with an extension hook make into the
    system. *)
Inductive call : Type :=
| LoadLibraryA (file : string)
| FreeLibrary (handle : Z)
| wglGetProcAddress (proc : string)
| GetProcAddress (handle : Z) (proc : string)
| dlopen (file : string) (flags : Z)
| dlclose (handle : Z)
| glXGetProcAddress (proc : string)
| dlsym (handle : Z) (proc : string).

(** The file-scope variable [libgl] and the calls made so far. *)
Record state : Type := State { libgl : Z; calls : list call }.

(** Before anything has run: a static variable starts as the null
    pointer. *)
Definition initial : state := State 0 [].

Section System.

(** What a call returns after the calls made before it. *)
Variable os : list call → call → Z.
(** The two flags of [dlfcn.h]. *)
Variables RTLD_LAZY RTLD_GLOBAL : Z.

Definition ask (c : call) (st : state) : Z * state :=
  (os (calls st) c, State (libgl st) (calls st ++ [c])).

(** [#ifdef _WIN32] *)
Definition win32_libgl_open (st : state) : state :=
  let '(h, st) := ask (LoadLibraryA "opengl32.dll") st in
  State h (calls st).

Definition win32_libgl_close (st : state) : state :=
  (ask (FreeLibrary (libgl st)) st).2.

Definition win32_libgl_sym (proc : string) (st : state) : Z * state :=
  let '(res, st) := ask (wglGetProcAddress proc) st in
  if res =? 0 then ask (GetProcAddress (libgl st) proc) st
  else (res, st).

(** [#else]: the section for the other systems. *)
Definition posix_libgl_open (st : state) : state :=
  let '(h, st) := ask (dlopen "libGL.so.1" (Z.lor RTLD_LAZY RTLD_GLOBAL)) st in
  State h (calls st).

Definition posix_libgl_close (st : state) : state :=
  (ask (dlclose (libgl st)) st).2.

Definition posix_libgl_sym (proc : string) (st : state) : Z * state :=
  let '(res, st) := ask (glXGetProcAddress proc) st in
  if res =? 0 then ask (dlsym (libgl st) proc) st
  else (res, st).

(** One use of the section by the rest of the file. *)
Inductive op : Type :=
| Open
| Close
| Lookup (proc : string).

Definition win32_step (st : state) (o : op) : state :=
  match o with
  | Open => win32_libgl_open st
  | Close => win32_libgl_close st
  | Lookup proc => (win32_libgl_sym proc st).2
  end.

Definition posix_step (st : state) (o : op) : state :=
  match o with
  | Open => posix_libgl_open st
  | Close => posix_libgl_close st
  | Lookup proc => (posix_libgl_sym proc st).2
  end.

(** The handle the system returned for the latest open among [rest], read
    after [seen]; [h] when there is none. *)
Fixpoint latest_open (seen : list call) (h : Z) (rest : list call) : Z :=
  match rest with
  | [] => h
  | c :: rest' =>
      latest_open (seen ++ [c])
        (match c with
         | LoadLibraryA _ | dlopen _ _ => os seen c
         | _ => h
         end)
        rest'
  end.

(** Every handle handed to the system in [rest] is the one of the latest
    open before it, [h] before the first. *)
Fixpoint handles_current (seen : list call) (h : Z) (rest : list call)
  : Prop :=
  match rest with
  | [] => True
  | c :: rest' =>
      match c with
      | FreeLibrary h' | GetProcAddress h' _ | dlclose h' | dlsym h' _ =>
          h' = h
      | _ => True
      end
      ∧ handles_current (seen ++ [c])
          (match c with
           | LoadLibraryA _ | dlopen _ _ => os seen c
           | _ => h
           end)
          rest'
  end.

(** The state of the section is in step with its calls. *)
Definition in_step (st : state) : Prop :=
  libgl st = latest_open [] 0 (calls st)
  ∧ handles_current [] 0 (calls st).

End System.

End Platform.

(** ** The Apple section of the emitted [src/gl3w.c] *)

Module Apple.

Local Open Scope Z_scope.

(** The calls the section makes into CoreFoundation; the allocator, the
    path style and the string encoding it passes are constants and left
    out. *)
Inductive call : Type :=
| CFURLCreateWithFileSystemPath (path : string)
| CFBundleCreate (url : Z)
| CFRelease (cf : Z)
| CFStringCreateWithCString (cStr : string)
| CFBundleGetFunctionPointerForName (bundle name : Z).

(** The two file-scope variables and the calls made so far. *)
Record state : Type := State {
  bundle : Z;
  bundleURL : Z;
  calls : list call
}.

Definition initial : state := State 0 0 [].

(** How a call of a function of the file ends: it returns, the program is
    aborted by a failed [assert], or the file names a member the struct does
    not have. *)
Inductive outcome (A : Type) : Type :=
| Returned (a : A)
| Aborted
| Stuck.

Arguments Returned {A} a.
Arguments Aborted {A}.
Arguments Stuck {A}.

Section System.

(** What a call returns after the calls made before it. *)
Variable os : list call → call → Z.
(** Whether the file is compiled with [NDEBUG], which turns [assert] into
    nothing. *)
Variable NDEBUG : bool.

Definition ask (c : call) (st : state) : Z * state :=
  (os (calls st) c, State (bundle st) (bundleURL st) (calls st ++ [c])).

(** [libgl_open]: [None] when [assert(bundle != NULL)] fails. *)
Definition libgl_open (st : state) : option state :=
  let '(url, st) :=
    ask (CFURLCreateWithFileSystemPath
           "/System/Library/Frameworks/OpenGL.framework") st in
  let st := State (bundle st) url (calls st) in
  let '(b, st) := ask (CFBundleCreate (bundleURL st)) st in
  let st := State b (bundleURL st) (calls st) in
  if NDEBUG || negb (bundle st =? 0) then Some st else None.

Definition libgl_close (st : state) : state :=
  let '(_, st) := ask (CFRelease (bundle st)) st in
  (ask (CFRelease (bundleURL st)) st).2.

Definition libgl_sym (proc : string) (st : state) : Z * state :=
  let '(procName, st) := ask (CFStringCreateWithCString proc) st in
  let '(res, st) :=
    ask (CFBundleGetFunctionPointerForName (bundle st) procName) st in
  let '(_, st) := ask (CFRelease procName) st in
  (res, st).

(** The handle [CFBundleCreate] answers in [libgl_open] from [st]. *)
Definition created_bundle (st : state) : Z :=
  let open_url :=
    CFURLCreateWithFileSystemPath
      "/System/Library/Frameworks/OpenGL.framework" in
  os (calls st ++ [open_url]) (CFBundleCreate (os (calls st) open_url)).

Section Generated.

Variable procs : list string.
Variable platform_sym : string → Z.
Variable get_integerv : Z → Z → Z → Z.
Variables GL_MAJOR_VERSION GL_MINOR_VERSION : Z.

(** [gl3wInit] in a file compiled with this section: [libgl_open] runs
    first, and nothing else runs when it aborts; when it returns, the rest
    is [Loader.gl3wInit], whose [LibOpen] stands for the open that returned
    and whose [platform_sym] is what [libgl_sym] answers. *)
Definition gl3wInit (st : state) (context : Loader.GL3WContext)
    (t : list Loader.event)
  : outcome (Z * Loader.GL3WContext * list Loader.event * state) :=
  match libgl_open st with
  | None => Aborted
  | Some st' =>
      match Loader.gl3wInit procs platform_sym get_integerv GL_MAJOR_VERSION
              GL_MINOR_VERSION context t with
      | Some (r, t') => Returned (r, t', st')
      | None => Stuck
      end
  end.

End Generated.

End System.

End Apple.

(** An installation where the bundle cannot be created, and one where it
    can. *)
Definition no_bundle (before : list Apple.call) (c : Apple.call) : Z :=
  match c with
  | Apple.CFURLCreateWithFileSystemPath _ => 256
  | _ => 0
  end.

Definition with_bundle (before : list Apple.call) (c : Apple.call) : Z :=
  match c with
  | Apple.CFURLCreateWithFileSystemPath _ => 256
  | Apple.CFBundleCreate _ => 512
  | _ => 0
  end.

(** * The pattern, read as a description of lines *)

Section RegexFacts.

Import Re.

Implicit Types (s lit rest name blank skipped : string) (cls : ascii → bool).

Lemma app_cons c s s' : String c s +:+ s' = String c (s +:+ s').
Proof. reflexivity. Qed.

Lemma app_nil s : EmptyString +:+ s = s.
Proof. reflexivity. Qed.

Lemma app_assoc' s1 s2 s3 : (s1 +:+ s2) +:+ s3 = s1 +:+ s2 +:+ s3.
Proof. induction s1 as [|c s1 IH]; [done|]. by rewrite !app_cons, IH. Qed.

Lemma literal_spec lit s rest : literal lit s = Some rest ↔ s = lit +:+ rest.
Proof.
  revert s. induction lit as [|a lit IH]; intros s; simpl.
  - rewrite app_nil. split; congruence.
  - rewrite app_cons. destruct s as [|b s]; [done|].
    destruct (Ascii.eqb a b) eqn:Hab.
    + apply Ascii.eqb_eq in Hab as ->. rewrite IH. split; congruence.
    + apply Ascii.eqb_neq in Hab. split; [done|congruence].
Qed.

Lemma span_app cls s : (span cls s).1 +:+ (span cls s).2 = s.
Proof.
  induction s as [|c s IH]; simpl; [done|].
  destruct (cls c); [|done]. destruct (span cls s) as [run rest].
  simpl in *. by rewrite app_cons, IH.
Qed.

Lemma span_all cls s : all cls (span cls s).1 = true.
Proof.
  induction s as [|c s IH]; simpl; [done|].
  destruct (cls c) eqn:Hc; [|done]. destruct (span cls s) as [run rest].
  simpl in *. by rewrite Hc.
Qed.

Lemma span_stop cls s : starts_with cls (span cls s).2 = false.
Proof.
  induction s as [|c s IH]; simpl; [done|].
  destruct (cls c) eqn:Hc; [|done]. by destruct (span cls s) as [run rest].
Qed.

(** The run a greedy repetition takes is determined by the subject. *)
Lemma span_unique cls run rest :
  all cls run = true → starts_with cls rest = false →
  span cls (run +:+ rest) = (run, rest).
Proof.
  induction run as [|c run IH]; intros Hall Hstop.
  - rewrite app_nil. destruct rest as [|c rest]; [done|].
    simpl in *. by rewrite Hstop.
  - rewrite app_cons. simpl in *. apply andb_true_iff in Hall as [-> Hall].
    by rewrite IH.
Qed.

Lemma word_not_space c : is_word c = true → is_space c = false.
Proof. destruct c as [[] [] [] [] [] [] [] []]; vm_compute; congruence. Qed.

Lemma starts_with_app cls s s' :
  nonempty s = true → starts_with cls (s +:+ s') = starts_with cls s.
Proof. by destruct s. Qed.

Lemma all_starts_with cls s :
  nonempty s = true → all cls s = true → starts_with cls s = true.
Proof. destruct s; [done|]. simpl. by intros _ [-> _]%andb_true_iff. Qed.

(** [APIENTRY\s+(\w+)] matches at the start of [s] with group 1 equal to
    [name] exactly when [s] is the literal, a non-empty run of blanks, and
    [name], a non-empty run of word characters that stops where [\w+]
    has to stop. *)
Lemma entry_spec s name :
  entry s = Some name
  ↔ ∃ blank rest,
      s = "APIENTRY" +:+ blank +:+ name +:+ rest
      ∧ nonempty blank = true ∧ all is_space blank = true
      ∧ nonempty name = true ∧ all is_word name = true
      ∧ starts_with is_word rest = false.
Proof.
  unfold entry. split.
  - destruct (literal "APIENTRY" s) as [s1|] eqn:Hlit; [|done].
    apply literal_spec in Hlit as ->.
    pose proof (span_app is_space s1) as Happ1.
    pose proof (span_all is_space s1) as Hall1.
    destruct (span is_space s1) as [blank s2]. simpl in *.
    pose proof (span_app is_word s2) as Happ2.
    pose proof (span_all is_word s2) as Hall2.
    pose proof (span_stop is_word s2) as Hstop2.
    destruct (span is_word s2) as [name' rest]. simpl in *.
    destruct (nonempty blank) eqn:Hb; [|done].
    destruct (nonempty name') eqn:Hn; [|done].
    intros [= ->]. exists blank, rest. by rewrite Happ2, Happ1.
  - intros (blank & rest & -> & Hb & Hsp & Hn & Hw & Hstop).
    rewrite (proj2 (literal_spec _ _ (blank +:+ name +:+ rest))) by done.
    rewrite span_unique; [|done|].
    + rewrite span_unique by done. by rewrite Hb, Hn.
    + rewrite starts_with_app by done.
      destruct name as [|c name]; [done|]. simpl in *.
      apply word_not_space. by apply andb_true_iff in Hw as [-> _].
Qed.

(** [.*] followed by the rest fails exactly when the rest matches at no
    place [.*] can reach. *)
Lemma dotstar_entry_None s :
  dotstar_entry s = None
  ↔ ∀ skipped s',
      s = skipped +:+ s' → all is_dot skipped = true → entry s' = None.
Proof.
  induction s as [|c s IH]; simpl.
  - split.
    + intros He [|c2 sk] s' Heq _; [|done]. by rewrite app_nil in Heq; subst.
    + intros H. by apply (H EmptyString EmptyString).
  - destruct (is_dot c) eqn:Hc.
    + destruct (dotstar_entry s) as [g|] eqn:Hd.
      * split; [done|]. intros H. apply IH. intros sk s' -> Hall.
        apply (H (String c sk) s'); [done|]. simpl. by rewrite Hc.
      * split.
        -- intros He [|c2 sk] s' Heq Hall.
           ++ by rewrite app_nil in Heq; subst.
           ++ rewrite app_cons in Heq. injection Heq as -> ->.
              simpl in Hall. apply andb_true_iff in Hall as [_ Hall].
              by apply (proj1 IH eq_refl sk s').
        -- intros H. by apply (H EmptyString (String c s)).
    + split.
      * intros He [|c2 sk] s' Heq Hall.
        -- by rewrite app_nil in Heq; subst.
        -- rewrite app_cons in Heq. injection Heq as -> ->.
           simpl in Hall. by rewrite Hc in Hall.
      * intros H. by apply (H EmptyString (String c s)).
Qed.

(** [.*] hands over at the last place where the rest of the pattern
    matches. *)
Lemma dotstar_entry_Some s name :
  dotstar_entry s = Some name →
  ∃ skipped s',
    s = skipped +:+ s' ∧ all is_dot skipped = true ∧ entry s' = Some name
    ∧ ∀ skipped2 s2,
        s = skipped2 +:+ s2 → all is_dot skipped2 = true →
        String.length skipped < String.length skipped2 → entry s2 = None.
Proof.
  revert name. induction s as [|c s IH]; intros name; simpl.
  - intros He. exists EmptyString, EmptyString. repeat split; [done|].
    intros [|c2 skipped2] s2; [simpl; lia|done].
  - destruct (is_dot c) eqn:Hc.
    + destruct (dotstar_entry s) as [g|] eqn:Hd.
      * intros [= ->].
        destruct (IH name eq_refl) as (sk & s' & -> & Hall & He & Hmax).
        exists (String c sk), s'. simpl. rewrite Hc, Hall.
        repeat split; [done|].
        intros [|c2 sk2] s2 Heq Hall2 Hlen; simpl in Hlen; [lia|].
        rewrite app_cons in Heq. injection Heq as -> Heq.
        simpl in Hall2. apply andb_true_iff in Hall2 as [_ Hall2].
        apply (Hmax sk2 s2); [done..|lia].
      * intros He. exists EmptyString, (String c s). repeat split; [done|].
        intros [|c2 sk2] s2 Heq Hall2 Hlen; simpl in Hlen; [lia|].
        rewrite app_cons in Heq. injection Heq as -> ->.
        simpl in Hall2. apply andb_true_iff in Hall2 as [_ Hall2].
        by apply (proj1 (dotstar_entry_None _) Hd sk2 s2).
    + intros He. exists EmptyString, (String c s). repeat split; [done|].
      intros [|c2 sk2] s2 Heq Hall2 Hlen; simpl in Hlen; [lia|].
      rewrite app_cons in Heq. injection Heq as -> ->.
      simpl in Hall2. by rewrite Hc in Hall2.
Qed.

(** X1: on a line of plain characters, [p.match(line)] succeeds with group
    1 equal to [name] only if the line reads [GLAPI], characters other than
    a line feed, [APIENTRY], blanks, and [name] ending where the word
    characters end; and among the places where the line can be read so,
    the last [APIENTRY] is taken. *)
Theorem p_match_Some line name :
  plain line = true →
  p_match line = Some name →
  ∃ skipped blank rest,
    line = "GLAPI" +:+ skipped +:+ "APIENTRY" +:+ blank +:+ name +:+ rest
    ∧ all is_dot skipped = true
    ∧ nonempty blank = true ∧ all is_space blank = true
    ∧ nonempty name = true ∧ all is_word name = true
    ∧ starts_with is_word rest = false
    ∧ ∀ skipped2 s2,
        line = "GLAPI" +:+ skipped2 +:+ s2 → all is_dot skipped2 = true →
        String.length skipped < String.length skipped2 → entry s2 = None.
Proof.
  intros _.
  unfold p_match. destruct (literal "GLAPI" line) as [s|] eqn:Hlit; [|done].
  apply literal_spec in Hlit as ->.
  intros (skipped & s' & -> & Hdot & He & Hmax)%dotstar_entry_Some.
  apply entry_spec in He as (blank & rest & -> & Hb & Hsp & Hn & Hw & Hstop).
  exists skipped, blank, rest. repeat split; try done.
  intros sk2 s2 Heq. apply Hmax. by apply (inj (String.app "GLAPI")) in Heq.
Qed.

(** X2: on a line of plain characters, [p.match(line)] fails exactly when
    the line cannot be read as the pattern asks. *)
Theorem p_match_None line :
  plain line = true →
  (p_match line = None
   ↔ ∀ skipped s',
       line = "GLAPI" +:+ skipped +:+ s' → all is_dot skipped = true →
       entry s' = None).
Proof.
  intros _. unfold p_match. destruct (literal "GLAPI" line) as [s|] eqn:Hlit.
  - apply literal_spec in Hlit as ->. rewrite dotstar_entry_None.
    split; intros H sk s' Heq; apply H.
    + by apply (inj (String.app "GLAPI")) in Heq.
    + by rewrite Heq.
  - split; [|done]. intros _ sk s' ->.
    by rewrite (proj2 (literal_spec "GLAPI" _ (sk +:+ s'))) in Hlit.
Qed.

End RegexFacts.

(** A prototype matches; a line without the export qualifier at its start
    does not; of two [APIENTRY] the later one is taken; the line feed ends
    what [.] may cross. *)
Example p_match_cases :
  p_match (glClear_line +:+ nl) = Some "glClear"
  ∧ p_match "typedef void (APIENTRY *GLDEBUGPROC)(GLenum source);" = None
  ∧ p_match "GLAPI APIENTRY a APIENTRY  b_2(" = Some "b_2"
  ∧ p_match "GLAPI void APIENTRY glClear APIENTRY ;" = Some "glClear"
  ∧ p_match ("GLAPI void" +:+ nl +:+ "APIENTRY glClear") = None.
Proof. repeat split. Qed.

(** * Properties of the extraction *)

Section Extraction.

Implicit Types (text line name : string) (lines l : list string).

Lemma collect_from acc lines :
  foldl (λ acc line,
           match p_match line with
           | Some name => acc ++ [name]
           | None => acc
           end) acc lines
  = acc ++ omap p_match lines.
Proof.
  revert acc. induction lines as [|line lines IH]; intros acc; simpl.
  - by rewrite app_nil_r.
  - rewrite IH. destruct (p_match line) as [name|]; [|done].
    by rewrite <- app_assoc.
Qed.

(** The loop appends the captured names in the order of the lines. *)
Lemma collect_omap lines : collect lines = omap p_match lines.
Proof. unfold collect. by rewrite collect_from. Qed.

Lemma sort_sorted l : Sorted String.le (sort l).
Proof. apply (Sorted_merge_sort String.le). Qed.

Lemma sort_permutation l : sort l ≡ₚ l.
Proof. apply (merge_sort_Permutation String.le). Qed.

(** The order is total and antisymmetric, so a list has one sorted
    arrangement: whatever algorithm [list.sort] runs, it returns [sort l]. *)
Lemma sort_unique l l' : Sorted String.le l' → l' ≡ₚ l → l' = sort l.
Proof.
  intros Hs Hp. apply (Sorted_unique String.le); [done|apply sort_sorted|].
  by rewrite sort_permutation.
Qed.

Lemma filter_omap_length name lines :
  length (filter (λ n, n = name) (omap p_match lines))
  = length (filter (λ line, p_match line = Some name) lines).
Proof.
  induction lines as [|line lines IH]; [done|].
  rewrite (filter_cons (λ line, p_match line = Some name)).
  change (omap p_match (line :: lines))
    with (match p_match line with
          | Some n => n :: omap p_match lines
          | None => omap p_match lines
          end).
  destruct (p_match line) as [n|].
  - rewrite filter_cons. destruct (decide (n = name)) as [->|Hne].
    + rewrite decide_True by done. simpl. by rewrite IH.
    + rewrite decide_False by congruence. done.
  - rewrite decide_False by done. done.
Qed.

Lemma omap_none lines :
  Forall (λ line, p_match line = None) lines → omap p_match lines = [].
Proof.
  induction 1 as [|line lines Hl _ IH]; [done|].
  simpl. by rewrite Hl.
Qed.

End Extraction.

(** C1 (as stated, refuted): two lines that declare the same name leave the
    name twice in [procs]; nothing after [procs.sort()] removes it. *)
Lemma procs_keeps_duplicates :
  procs (glClear_line +:+ nl +:+ glClear_line +:+ nl) = ["glClear"; "glClear"]
  ∧ ¬ NoDup (procs (glClear_line +:+ nl +:+ glClear_line +:+ nl)).
Proof.
  assert (procs (glClear_line +:+ nl +:+ glClear_line +:+ nl)
          = ["glClear"; "glClear"]) as E by (vm_compute; reflexivity).
  split; [exact E|]. rewrite E. intros H.
  apply NoDup_cons in H as [Hin _]. apply Hin. by left.
Qed.

(** C1 (amended): for every input text, [procs] is sorted ascending in the
    byte order of strings and holds the captured name of every matching
    line, each name as many times as there are lines that capture it. *)
Theorem procs_sorted_permutation (text : string) :
  Sorted String.le (procs text)
  ∧ procs text ≡ₚ omap p_match (readlines text)
  ∧ ∀ name,
      length (filter (λ n, n = name) (procs text))
      = length (filter (λ line, p_match line = Some name) (readlines text)).
Proof.
  assert (procs text ≡ₚ omap p_match (readlines text)) as Hperm.
  { unfold procs, procs_of_lines. rewrite sort_permutation.
    by rewrite collect_omap. }
  split; [apply sort_sorted|]. split; [done|].
  intros name. rewrite <- filter_omap_length. by rewrite Hperm.
Qed.

(** * Properties of the emission *)


(** C8: when no line of the input matches, [procs] is empty and both files
    are still written: the header is its fixed parts with nothing between
    them, so the struct holds the two version members only and no macro
    line follows it, and [setup_context] opens directly on the check of the
    version pointer. *)
Theorem no_declarations (text : string) :
  Forall (λ line, p_match line = None) (readlines text) →
  procs text = []
  ∧ gl3w_h (procs text) = UNLICENSE +:+ gl3w_h_head +:+ gl3w_h_mid +:+ gl3w_h_tail
  ∧ gl3w_c (procs text) = UNLICENSE +:+ gl3w_c_head +:+ gl3w_c_setup +:+ gl3w_c_tail
  ∧ (∃ before after,
        gl3w_h (procs text)
        = before
          +:+ ("typedef struct _GL3WContext {" +:+ nl
               +:+ "    int major;" +:+ nl
               +:+ "    int minor;" +:+ nl +:+ nl
               +:+ "} GL3WContext;" +:+ nl +:+ nl +:+ nl +:+ nl
               +:+ "typedef void (*GL3WglProc)(void);" +:+ nl)
          +:+ after)
  ∧ (∃ before after,
        gl3w_c (procs text)
        = before
          +:+ ("static int setup_context(GL3WContext *p) {" +:+ nl
               +:+ nl +:+ nl
               +:+ "    if (!p->gl3wGetIntegerv)" +:+ nl)
          +:+ after).
Proof.
  intros Hnone.
  assert (procs text = []) as E.
  { unfold procs, procs_of_lines. rewrite collect_omap, omap_none; done. }
  rewrite E. split; [done|]. split; [reflexivity|]. split; [reflexivity|].
  split.
  - exists (String.substring 0 1506 (gl3w_h [])),
           (String.substring 1619 1000 (gl3w_h [])).
    vm_compute. reflexivity.
  - exists (String.substring 0 3038 (gl3w_c [])),
           (String.substring 3112 1000 (gl3w_c [])).
    vm_compute. reflexivity.
Qed.

Lemma no_declarations_witness :
  procs ("#ifndef __glcorearb_h_" +:+ nl +:+ "GLAPI void glClear (void);" +:+ nl)
  = [].
Proof.
  refine (proj1 (no_declarations
                   ("#ifndef __glcorearb_h_" +:+ nl
                    +:+ "GLAPI void glClear (void);" +:+ nl) _)).
  vm_compute. repeat constructor.
Defined.

(** * Properties of the script *)

Section ScriptFacts.

Import Script.

Lemma write_file_Some dir path content w w' :
  write_file dir path content w = Some w' →
  is_dir w dir = true ∧ is_dir w path = false
  ∧ w' = World (dirs w) (<[path := content]> (files w)) (stdout w).
Proof.
  unfold write_file. intros H.
  destruct (is_dir w dir); [|done]. destruct (is_dir w path); [done|].
  simpl in H. by injection H as <-.
Qed.

Lemma read_file_Some path w text :
  read_file path w = Some text →
  is_dir w path = false ∧ files w !! path = Some text.
Proof. unfold read_file. by destruct (is_dir w path). Qed.

Lemma run_generated web w w1 :
  run web w = Some w1 → ∃ text, generated text w1.
Proof.
  unfold run. intros H.
  repeat match type of H with
  | context [mbind _ ?m] =>  destruct m eqn:? ; simpl in H; [|discriminate]
  end.
  apply write_file_Some in H as (Hsrc & Hc & ->).
  match goal with H : write_file _ _ _ _ = _ |- _ =>
  apply write_file_Some in H as (Hgl & Hh & ->) end.
  match goal with H : read_file _ _ = _ |- _ =>
  apply read_file_Some in H as (Hin & Htext) end.
  eexists. unfold generated, is_dir in *. simpl in *.
  repeat split; try done.
  - rewrite lookup_insert_ne by done. rewrite lookup_insert_ne by done. done.
  - rewrite lookup_insert_ne by done. by rewrite lookup_insert_eq.
  - by rewrite lookup_insert_eq.
Qed.

Lemma generated_run web text w :
  generated text w →
  run web w = Some (World (dirs w) (files w) (stdout w ++ rerun_lines)).
Proof.
  intros (Hgl & Hsrc & Hin & Hh & Hc & Htext & Hhf & Hcf).
  assert (is_file w glcorearb_h = true) as Hfile.
  { unfold is_file. rewrite Htext. apply bool_decide_eq_true_2. eauto. }
  unfold run, path_exists. rewrite Hgl. simpl. rewrite Hsrc. simpl.
  rewrite Hfile, orb_true_r. simpl.
  unfold read_file, write_file, is_dir in *. simpl.
  rewrite Hin. simpl. rewrite Htext. simpl.
  rewrite Hgl, Hh. simpl. rewrite Hsrc, Hc. simpl.
  rewrite (insert_id _ _ _ Hhf), (insert_id _ _ _ Hcf).
  rewrite <- !app_assoc. done.
Qed.

(** C6: a run that ends normally leaves the two files as [gl3w_h] and
    [gl3w_c] of the declarations of the input file it read; a second run
    from there ends normally too, whatever the registry then serves, and
    leaves every file with the same bytes. *)
Theorem run_twice_same_files web web' w w1 :
  run web w = Some w1 →
  ∃ text w2,
    files w1 !! glcorearb_h = Some text
    ∧ files w1 !! gl3w_h_path = Some (gl3w_h (procs text))
    ∧ files w1 !! gl3w_c_path = Some (gl3w_c (procs text))
    ∧ run web' w1 = Some w2
    ∧ files w2 = files w1
    ∧ dirs w2 = dirs w1.
Proof.
  intros [text Hgen]%run_generated. exists text. eexists.
  pose proof Hgen as (_ & _ & _ & _ & _ & Htext & Hh & Hc).
  split; [done|]. split; [done|]. split; [done|].
  split; [by apply generated_run with (text := text)|done].
Qed.

Lemma run_twice_same_files_witness :
  ∃ w1 text w2,
    run (Some (glClear_line +:+ nl)) (World ∅ ∅ []) = Some w1
    ∧ files w1 !! gl3w_h_path = Some (gl3w_h (procs text))
    ∧ files w1 !! gl3w_c_path = Some (gl3w_c (procs text))
    ∧ run None w1 = Some w2
    ∧ files w2 = files w1.
Proof.
  destruct (run (Some (glClear_line +:+ nl)) (World ∅ ∅ [])) as [w1|] eqn:Hrun;
    [|vm_compute in Hrun; discriminate].
  destruct (run_twice_same_files _ None _ _ Hrun)
    as (text & w2 & _ & Hh & Hc & Hrerun & Hfiles & _).
  exists w1, text, w2. repeat split; assumption.
Defined.

End ScriptFacts.

(** * Properties of the emitted loader *)

Section LoaderFacts.

Import Loader.
Local Open Scope Z_scope.

Variable procs : list string.
Variable platform_sym : string → Z.
Variable get_integerv : Z → Z → Z → Z.
Variables GL_MAJOR_VERSION GL_MINOR_VERSION : Z.

Local Abbreviation member_names := (member_names procs).
Local Abbreviation memset0 := (memset0 procs).
Local Abbreviation resolve := (resolve platform_sym).
Local Abbreviation assign := (assign platform_sym).
Local Abbreviation resolved := (resolved procs platform_sym).
Local Abbreviation init_trace := (init_trace procs).
Local Abbreviation gl3wInit :=
  (gl3wInit procs platform_sym get_integerv GL_MAJOR_VERSION
     GL_MINOR_VERSION).
Local Abbreviation gl3wShutdown := (gl3wShutdown procs).

Lemma resolve_spec l ctx t :
  resolve l ctx t
  = Some (Context (major ctx) (minor ctx) (foldl assign (members ctx) l),
          t ++ (Sym <$> l)).
Proof.
  revert ctx t. induction l as [|proc l IH]; intros ctx t; simpl.
  - destruct ctx. by rewrite app_nil_r.
  - unfold libgl_sym, emit, mbind, M_bind, mret, M_ret. simpl.
    rewrite IH. simpl. by rewrite <- app_assoc.
Qed.

Lemma gl3wInit_unfold context t :
  gl3wInit context t
  = match resolved !! "gl3wGetIntegerv" with
    | None => None
    | Some fn =>
        if fn =? 0
        then Some ((0, Context 0 0 resolved), t ++ init_trace)
        else
          let mj := get_integerv fn GL_MAJOR_VERSION 0 in
          let mn := get_integerv fn GL_MINOR_VERSION 0 in
          Some ((if mj <? 3 then 0 else 1, Context mj mn resolved),
                t ++ init_trace
                  ++ [GetIntegerv fn GL_MAJOR_VERSION;
                      GetIntegerv fn GL_MINOR_VERSION])
    end.
Proof.
  unfold gl3wInit, Loader.gl3wInit, setup_context, libgl_open, emit.
  unfold mbind, M_bind, mret, M_ret. rewrite resolve_spec.
  unfold resolved, init_trace, get_member. simpl.
  generalize (foldl assign
                (list_to_map ((λ name, (name, 0)) <$> member_names)) procs).
  intros m.
  destruct (m !! "gl3wGetIntegerv") as [fn|]; [|reflexivity].
  unfold mret, M_ret. destruct (fn =? 0) eqn:Hz.
  - by rewrite <- app_assoc.
  - unfold call_major, call_minor, emit, mbind, M_bind, mret, M_ret.
    simpl. rewrite <- !app_assoc. simpl.
    by destruct (get_integerv fn GL_MAJOR_VERSION 0 <? 3).
Qed.

Lemma gl3wShutdown_unfold context t :
  gl3wShutdown context t = Some (memset0 context, t ++ [LibClose]).
Proof. reflexivity. Qed.

Lemma memset0_const context context' : memset0 context = memset0 context'.
Proof. reflexivity. Qed.

Lemma foldl_assign_lookup_None l m name :
  name ∉ ((λ proc, p_s (proc_t proc)) <$> l) →
  foldl assign m l !! name = m !! name.
Proof.
  revert m. induction l as [|proc l IH]; intros m Hn; cbn [foldl]; [done|].
  rewrite fmap_cons, not_elem_of_cons in Hn. destruct Hn as [Hne Hn].
  rewrite IH by done. unfold assign. by rewrite lookup_insert_ne.
Qed.

Lemma foldl_assign_is_Some l m name :
  is_Some (foldl assign m l !! name)
  ↔ name ∈ ((λ proc, p_s (proc_t proc)) <$> l) ∨ is_Some (m !! name).
Proof.
  revert m. induction l as [|proc l IH]; intros m; cbn [foldl].
  - rewrite fmap_nil, elem_of_nil. tauto.
  - rewrite IH, fmap_cons, elem_of_cons. unfold assign.
    destruct (decide (p_s (proc_t proc) = name)) as [<-|Hne].
    + rewrite lookup_insert_eq.
      split; [intros _; left; by left|intros _; right; eauto].
    + rewrite lookup_insert_ne by done.
      split; [tauto|]. intros [[Heq|Hin]|Hm]; [congruence|tauto..].
Qed.

Lemma foldl_assign_lookup l m proc :
  NoDup ((λ proc, p_s (proc_t proc)) <$> l) → proc ∈ l →
  foldl assign m l !! p_s (proc_t proc) = Some (platform_sym proc).
Proof.
  revert m. induction l as [|proc' l IH]; intros m Hnd Hin; cbn [foldl].
  - by apply elem_of_nil in Hin.
  - rewrite fmap_cons in Hnd. apply NoDup_cons in Hnd as [Hfresh Hnd].
    apply elem_of_cons in Hin as [->|Hin]; [|by apply IH].
    rewrite foldl_assign_lookup_None by done.
    unfold assign. by rewrite lookup_insert_eq.
Qed.

Lemma zero_map_lookup (l : list string) name :
  (list_to_map ((λ n, (n, 0)) <$> l) : gmap string Z) !! name
  = if decide (name ∈ l) then Some 0 else None.
Proof.
  induction l as [|n l IH].
  - rewrite fmap_nil, list_to_map_nil. by rewrite lookup_empty.
  - rewrite fmap_cons, list_to_map_cons.
    destruct (decide (n = name)) as [->|Hne].
    + rewrite lookup_insert_eq. rewrite decide_True; [done|by left].
    + rewrite lookup_insert_ne by done. rewrite IH.
      destruct (decide (name ∈ l)).
      * rewrite decide_True; [done|by right].
      * rewrite decide_False; [done|]. rewrite elem_of_cons.
        intros [Heq|Hin]; congruence.
Qed.

Lemma memset0_lookup context name :
  members (memset0 context) !! name
  = if decide (name ∈ member_names) then Some 0 else None.
Proof. apply zero_map_lookup. Qed.

(** A member is there exactly when the struct declares it. *)
Lemma resolved_is_Some name :
  is_Some (resolved !! name) ↔ name ∈ member_names.
Proof.
  unfold resolved. rewrite foldl_assign_is_Some, memset0_lookup.
  fold member_names. destruct (decide (name ∈ member_names)).
  - split; [done|intros _; right; eauto].
  - split; [intros [?|[? ?]]; done|done].
Qed.

(** With distinct member names, every member holds the address found
    for its declaration. *)
Lemma resolved_lookup proc :
  NoDup member_names → proc ∈ procs →
  resolved !! p_s (proc_t proc) = Some (platform_sym proc).
Proof. apply foldl_assign_lookup. Qed.


(** In a struct with distinct member names, the version pointer is what
    [glGetIntegerv] resolves to. *)
Lemma resolved_version_query :
  NoDup member_names → "glGetIntegerv" ∈ procs →
  resolved !! "gl3wGetIntegerv" = Some (platform_sym "glGetIntegerv").
Proof. intros Hnd Hin. apply (resolved_lookup "glGetIntegerv"); done. Qed.

Lemma handles_app t1 t2 : handles (t1 ++ t2) = handles t1 + handles t2.
Proof. unfold handles. rewrite !filter_app, !length_app. lia. Qed.

Lemma handles_Sym (l : list string) : handles (Sym <$> l) = 0.
Proof.
  induction l as [|name l IH]; [done|].
  change (Sym <$> name :: l) with ([Sym name] ++ (Sym <$> l)).
  rewrite handles_app, IH. reflexivity.
Qed.

Lemma LibClose_not_Sym (l : list string) : LibClose ∉ Sym <$> l.
Proof. intros (name & Heq & _)%list_elem_of_fmap. discriminate. Qed.

(** C3: when the member [gl3wGetIntegerv] holds the null pointer after the
    resolution lines, [gl3wInit] returns 0: it is not stuck, nothing is
    asked of any other member, and no version query is made. When the
    member holds anything else, the two version queries are made, whatever
    the other members hold: the check of that one member is the only one
    before them. *)
Theorem init_version_query_check context t fn :
  resolved !! "gl3wGetIntegerv" = Some fn →
  (fn = 0 →
   ∃ context',
     gl3wInit context t = Some ((0, context'), t ++ LibOpen :: (Sym <$> procs)))
  ∧ (fn ≠ 0 →
     ∃ res context',
       gl3wInit context t
       = Some ((res, context'),
               t ++ LibOpen :: (Sym <$> procs)
                 ++ [GetIntegerv fn GL_MAJOR_VERSION;
                     GetIntegerv fn GL_MINOR_VERSION])).
Proof.
  intros Hres. rewrite gl3wInit_unfold, Hres. split; intros Hfn.
  - rewrite Hfn. simpl. eauto.
  - apply Z.eqb_neq in Hfn. rewrite Hfn. cbv zeta. eauto.
Qed.

(** Once [libgl_open] has returned: for every record passed in, [gl3wInit]
    of a well-formed struct returns (it is never stuck); it opens the
    library first and then looks
    up every declaration by name; the record it leaves does not depend on
    the record passed in, holds exactly the declared members, each with the
    address found for its declaration, and the version members are zero
    unless [glGetIntegerv] wrote them; and the result is 1 exactly when the
    version pointer is not null and the major version found is at least 3,
    and 0 otherwise. *)
Theorem gl3wInit_spec context t :
  NoDup member_names → "glGetIntegerv" ∈ procs →
  ∃ res context' calls,
    gl3wInit context t
    = Some ((res, context'), t ++ LibOpen :: (Sym <$> procs) ++ calls)
    ∧ (∀ other, gl3wInit other t = gl3wInit context t)
    ∧ (∀ name, is_Some (members context' !! name) ↔ name ∈ member_names)
    ∧ (∀ proc, proc ∈ procs →
         members context' !! p_s (proc_t proc) = Some (platform_sym proc))
    ∧ (platform_sym "glGetIntegerv" = 0 →
         major context' = 0 ∧ minor context' = 0 ∧ calls = [])
    ∧ (platform_sym "glGetIntegerv" ≠ 0 →
         major context'
         = get_integerv (platform_sym "glGetIntegerv") GL_MAJOR_VERSION 0
         ∧ minor context'
           = get_integerv (platform_sym "glGetIntegerv") GL_MINOR_VERSION 0)
    ∧ (res = 1 ↔ platform_sym "glGetIntegerv" ≠ 0 ∧ 3 ≤ major context')
    ∧ (res = 0 ↔ ¬ (platform_sym "glGetIntegerv" ≠ 0 ∧ 3 ≤ major context')).
Proof.
  intros Hnd Hin.
  assert (∀ other, gl3wInit other t = gl3wInit context t) as Hsame.
  { intros other. by rewrite !gl3wInit_unfold. }
  rewrite gl3wInit_unfold in *.
  rewrite resolved_version_query in * by done.
  destruct (platform_sym "glGetIntegerv" =? 0) eqn:Hfn.
  - apply Z.eqb_eq in Hfn. eexists 0, _, [].
    rewrite app_nil_r. split; [done|]. split; [done|]. simpl.
    split; [apply resolved_is_Some|].
    split; [by intros; apply resolved_lookup|].
    repeat split; try done; try lia.
  - apply Z.eqb_neq in Hfn. cbv zeta. eexists _, _, _.
    split; [done|]. split; [done|]. simpl.
    split; [apply resolved_is_Some|].
    split; [by intros; apply resolved_lookup|].
    split; [done|]. split; [done|].
    destruct (_ <? 3) eqn:Hlt.
    + apply Z.ltb_lt in Hlt. split; split; (done || lia).
    + apply Z.ltb_ge in Hlt. split; split; (done || lia).
Qed.

(** C5: [gl3wShutdown] closes the library and leaves the record zeroed,
    and [gl3wInit] on that record returns the same result and leaves the
    same record as [gl3wInit] on any other record, from any trace, with the
    same resolution of names. *)
Theorem shutdown_then_init context fresh t t' :
  "glGetIntegerv" ∈ procs →
  ∃ closed res context' t2 t3,
    gl3wShutdown context t = Some (closed, t ++ [LibClose])
    ∧ closed = memset0 fresh
    ∧ major closed = 0 ∧ minor closed = 0
    ∧ (∀ name v, members closed !! name = Some v → v = 0)
    ∧ gl3wInit closed (t ++ [LibClose]) = Some ((res, context'), t2)
    ∧ gl3wInit fresh t' = Some ((res, context'), t3).
Proof.
  intros Hin.
  assert (is_Some (resolved !! "gl3wGetIntegerv")) as [fn Hfn].
  { apply resolved_is_Some.
    apply (list_elem_of_fmap_2 (λ proc, p_s (proc_t proc))) in Hin.
    exact Hin. }
  assert (∀ name v, members (memset0 context) !! name = Some v → v = 0)
    as Hzero.
  { intros name v. rewrite memset0_lookup. case_decide; congruence. }
  exists (memset0 context).
  destruct (fn =? 0) eqn:Hz.
  - exists 0, (Context 0 0 resolved), ((t ++ [LibClose]) ++ init_trace),
      (t' ++ init_trace).
    rewrite !gl3wInit_unfold, Hfn, Hz. by repeat split.
  - eexists _, _, _, _.
    rewrite !gl3wInit_unfold, Hfn, Hz. cbv zeta. by repeat split.
Qed.

(** C9: when [gl3wInit] returns 0 and leaves the version pointer null, both
    version members of the record are 0, and [gl3wIsSupported] on that
    record is 0 for every requested version. *)
Theorem failed_init_supports_nothing context t context' t' :
  gl3wInit context t = Some ((0, context'), t') →
  members context' !! "gl3wGetIntegerv" = Some 0 →
  major context' = 0 ∧ minor context' = 0
  ∧ ∀ major' minor', gl3wIsSupported context' major' minor' = 0.
Proof.
  rewrite gl3wInit_unfold. intros Hinit Hnull.
  destruct (resolved !! "gl3wGetIntegerv") as [fn|] eqn:Hfn; [|done].
  destruct (fn =? 0) eqn:Hz.
  - injection Hinit as <- _. done.
  - cbv zeta in Hinit. injection Hinit as _ <- _. simpl in Hnull.
    rewrite Hfn in Hnull. injection Hnull as ->. done.
Qed.

(** C10: whenever [gl3wInit] returns, with 0 or with 1, the first thing it
    did was to open the library, nothing it did afterwards closed it, and
    one more handle is open than before; the close happens in
    [gl3wShutdown], which brings the count back, and [gl3wGetProcAddress]
    only looks a name up. *)
Theorem init_never_closes context t res context' t' :
  gl3wInit context t = Some ((res, context'), t') →
  (∃ steps, t' = t ++ LibOpen :: steps ∧ LibClose ∉ steps)
  ∧ handles t' = handles t + 1
  ∧ (∃ closed, gl3wShutdown context' t' = Some (closed, t' ++ [LibClose]))
  ∧ handles (t' ++ [LibClose]) = handles t
  ∧ (∀ proc, gl3wGetProcAddress platform_sym proc t'
             = Some (platform_sym proc, t' ++ [Sym proc])).
Proof.
  rewrite gl3wInit_unfold. intros Hinit.
  assert (∃ steps, t' = t ++ LibOpen :: (Sym <$> procs) ++ steps
                   ∧ (LibClose ∉ steps) ∧ handles steps = 0)
    as (steps & -> & Hsteps & Hh).
  { destruct (resolved !! "gl3wGetIntegerv") as [fn|]; [|done].
    destruct (fn =? 0).
    - injection Hinit as _ _ <-. exists []. rewrite app_nil_r.
      split; [done|]. split; [apply not_elem_of_nil|done].
    - cbv zeta in Hinit. injection Hinit as _ _ <-. eexists.
      split; [done|]. split; [|done].
      rewrite !elem_of_cons, elem_of_nil. intros [|[|]]; done. }
  split.
  { eexists. split; [done|]. rewrite elem_of_app.
    intros [H|H]; [by apply LibClose_not_Sym in H|done]. }
  assert (handles (t ++ LibOpen :: (Sym <$> procs) ++ steps) = handles t + 1)
    as Hopen.
  { change (LibOpen :: (Sym <$> procs) ++ steps)
      with ([LibOpen] ++ (Sym <$> procs) ++ steps).
    rewrite !handles_app, handles_Sym, Hh. change (handles [LibOpen]) with 1.
    lia. }
  split; [done|]. split; [by eexists|].
  split; [|done].
  rewrite handles_app, Hopen. change (handles [LibClose]) with (-1). lia.
Qed.

(** C2: for every record and every requested version, [gl3wIsSupported]
    returns what the description states: 0 when the resolved major is below
    3; otherwise 1 when the majors are equal and the resolved minor is at
    least the requested one, 1 when the resolved major is greater than the
    requested one, and 0 otherwise. *)
Theorem gl3wIsSupported_spec context major' minor' :
  gl3wIsSupported context major' minor'
  = Z.b2z (is_supported_stated (major context) (minor context) major' minor').
Proof.
  unfold gl3wIsSupported, is_supported_stated.
  destruct (major context <? 3); [done|].
  destruct (major context =? major') eqn:Heq; simpl.
  - rewrite Z.geb_leb. destruct (minor' <=? minor context) eqn:Hle; [done|].
    apply Z.eqb_eq in Heq. rewrite Heq, Z.ltb_irrefl. done.
  - rewrite Z.geb_leb. apply Z.eqb_neq in Heq.
    destruct (major' <=? major context) eqn:Hle.
    + apply Z.leb_le in Hle.
      rewrite (proj2 (Z.ltb_lt major' (major context))) by lia. done.
    + apply Z.leb_gt in Hle.
      rewrite (proj2 (Z.ltb_ge major' (major context))) by lia. done.
Qed.

End LoaderFacts.

(** A 4.5 context: the stale record is overwritten, both members are
    resolved, the two queries fill in the version, and the result is 1. *)
Example gl3wInit_4_5 :
  Loader.gl3wInit two_procs all_resolve version_4_5 GL_MAJOR_VERSION_821B
    GL_MINOR_VERSION_821C stale []
  = Some ((1%Z,
           Loader.Context 4 5
             {[ "gl3wClear" := 8192%Z; "gl3wGetIntegerv" := 4096%Z ]}),
          [Loader.LibOpen; Loader.Sym "glClear"; Loader.Sym "glGetIntegerv";
           Loader.GetIntegerv 4096 GL_MAJOR_VERSION_821B;
           Loader.GetIntegerv 4096 GL_MINOR_VERSION_821C]).
Proof. vm_compute. reflexivity. Qed.

(** Without [glGetIntegerv] among the declarations the struct has no member
    for [setup_context] to read. *)
Example gl3wInit_no_member :
  Loader.gl3wInit ["glClear"] all_resolve version_4_5 GL_MAJOR_VERSION_821B
    GL_MINOR_VERSION_821C stale []
  = None.
Proof. vm_compute. reflexivity. Qed.

(** The four cases the description lists. *)
Example gl3wIsSupported_cases :
  Loader.gl3wIsSupported (Loader.Context 3 3 ∅) 3 0 = 1%Z
  ∧ Loader.gl3wIsSupported (Loader.Context 3 3 ∅) 4 0 = 0%Z
  ∧ Loader.gl3wIsSupported (Loader.Context 4 0 ∅) 3 3 = 1%Z
  ∧ Loader.gl3wIsSupported (Loader.Context 2 9 ∅) 1 0 = 0%Z.
Proof. repeat split. Qed.

Lemma two_procs_NoDup : NoDup (Loader.member_names two_procs).
Proof. apply (bool_decide_unpack _). vm_compute. exact I. Defined.

Lemma two_procs_version_query : "glGetIntegerv" ∈ two_procs.
Proof. apply (bool_decide_unpack _). vm_compute. exact I. Defined.

Lemma init_version_query_check_witness :
  ∃ context',
    Loader.gl3wInit two_procs nothing_resolves version_4_5
      GL_MAJOR_VERSION_821B GL_MINOR_VERSION_821C stale []
    = Some ((0%Z, context'),
            [Loader.LibOpen; Loader.Sym "glClear"; Loader.Sym "glGetIntegerv"]).
Proof.
  refine (proj1 (init_version_query_check two_procs nothing_resolves
                   version_4_5 GL_MAJOR_VERSION_821B GL_MINOR_VERSION_821C
                   stale [] 0%Z _) eq_refl).
  vm_compute. reflexivity.
Defined.

Lemma gl3wInit_spec_witness :
  ∃ res context' calls,
    Loader.gl3wInit two_procs all_resolve version_4_5 GL_MAJOR_VERSION_821B
      GL_MINOR_VERSION_821C stale []
    = Some ((res, context'),
            [] ++ Loader.LibOpen :: (Loader.Sym <$> two_procs) ++ calls)
    ∧ (res = 1%Z ↔ all_resolve "glGetIntegerv" ≠ 0%Z
                   ∧ (3 ≤ Loader.major context')%Z).
Proof.
  destruct (gl3wInit_spec two_procs all_resolve version_4_5 GL_MAJOR_VERSION_821B
              GL_MINOR_VERSION_821C stale [] two_procs_NoDup
              two_procs_version_query)
    as (res & context' & calls & Hinit & _ & _ & _ & _ & _ & Hres & _).
  exists res, context', calls. split; assumption.
Defined.

Lemma shutdown_then_init_witness :
  ∃ closed res context' t2 t3,
    Loader.gl3wShutdown two_procs stale [Loader.LibOpen]
    = Some (closed, [Loader.LibOpen; Loader.LibClose])
    ∧ Loader.gl3wInit two_procs all_resolve version_4_5 GL_MAJOR_VERSION_821B
        GL_MINOR_VERSION_821C closed [Loader.LibOpen; Loader.LibClose]
      = Some ((res, context'), t2)
    ∧ Loader.gl3wInit two_procs all_resolve version_4_5 GL_MAJOR_VERSION_821B
        GL_MINOR_VERSION_821C (Loader.Context 0 0 ∅) []
      = Some ((res, context'), t3).
Proof.
  destruct (shutdown_then_init two_procs all_resolve version_4_5
              GL_MAJOR_VERSION_821B GL_MINOR_VERSION_821C stale (Loader.Context 0 0 ∅)
              [Loader.LibOpen] [] two_procs_version_query)
    as (closed & res & context' & t2 & t3 & Hs & _ & _ & _ & _ & H1 & H2).
  exists closed, res, context', t2, t3. repeat split; assumption.
Defined.

Lemma failed_init_supports_nothing_witness :
  Loader.gl3wIsSupported
    (Loader.Context 0 0 (Loader.resolved two_procs nothing_resolves)) 1 0
  = 0%Z.
Proof.
  refine (proj2 (proj2 (failed_init_supports_nothing two_procs
                          nothing_resolves version_4_5 GL_MAJOR_VERSION_821B
                          GL_MINOR_VERSION_821C stale [] _ _ _ _)) 1%Z 0%Z).
  - vm_compute. reflexivity.
  - vm_compute. reflexivity.
Defined.

Lemma init_never_closes_witness :
  Loader.handles
    [Loader.LibOpen; Loader.Sym "glClear"; Loader.Sym "glGetIntegerv"]
  = (Loader.handles [] + 1)%Z.
Proof.
  refine (proj1 (proj2 (init_never_closes two_procs nothing_resolves
                          version_4_5 GL_MAJOR_VERSION_821B GL_MINOR_VERSION_821C
                          stale [] 0%Z
                          (Loader.Context 0 0
                             (Loader.resolved two_procs nothing_resolves))
                          _ _))).
  vm_compute. reflexivity.
Defined.

(** * More about the extraction *)

Section ExtractionMore.

Import Re.
Implicit Types (text line name : string) (lines l : list string).

Lemma p_match_word line name :
  p_match line = Some name → nonempty name = true ∧ all is_word name = true.
Proof.
  unfold p_match. destruct (literal "GLAPI" line) as [s|]; [|done].
  intros (skipped & s' & _ & _ & He & _)%dotstar_entry_Some.
  apply entry_spec in He as (blank & rest & _ & _ & _ & Hn & Hw & _). done.
Qed.

Lemma procs_permutation text : procs text ≡ₚ omap p_match (readlines text).
Proof.
  unfold procs, procs_of_lines. by rewrite sort_permutation, collect_omap.
Qed.

(** X3: from a plain text, every extracted name is a non-empty run of word
    characters. *)
Theorem procs_names_are_words text name :
  plain_text text = true →
  name ∈ procs text → nonempty name = true ∧ all is_word name = true.
Proof.
  intros _. rewrite procs_permutation. intros (line & _ & Hm)%list_elem_of_omap.
  by apply p_match_word in Hm.
Qed.

(** X4: the result depends on the lines only through the names the matching
    lines capture, whatever their order and whatever else stands between
    them. *)
Theorem procs_of_lines_matching_only lines lines' :
  omap p_match lines ≡ₚ omap p_match lines' →
  procs_of_lines lines = procs_of_lines lines'.
Proof.
  intros Hperm. unfold procs_of_lines. apply sort_unique.
  - apply sort_sorted.
  - by rewrite sort_permutation, !collect_omap.
Qed.

Lemma readlines_cons c text :
  readlines (String c text)
  = if Ascii.eqb c "010"%char then String c EmptyString :: readlines text
    else match readlines text with
         | [] => [String c EmptyString]
         | l :: ls => String c l :: ls
         end.
Proof. reflexivity. Qed.

Lemma unlines_cons line lines : unlines (line :: lines) = line +:+ unlines lines.
Proof. reflexivity. Qed.

Lemma readlines_parts text :
  unlines (readlines text) = text
  ∧ Forall (λ line, line_shape line = true) (readlines text).
Proof.
  induction text as [|c text [IHu IHs]]; [done|].
  rewrite readlines_cons. destruct (Ascii.eqb c "010"%char) eqn:Hc.
  - split; [|by constructor].
    by rewrite unlines_cons, IHu, app_cons, app_nil.
  - destruct (readlines text) as [|l ls].
    + change (unlines []) with EmptyString in IHu. subst text.
      by split; [|constructor].
    + rewrite unlines_cons in *. split.
      * by rewrite app_cons, IHu.
      * apply Forall_cons in IHs as [Hl Hls]. constructor; [|done].
        destruct l as [|c' l]; [done|].
        change (is_dot c && line_shape (String c' l) = true).
        unfold is_dot. by rewrite Hc, Hl.
Qed.

(** X5: of a plain text, the loop sees the whole input, cut after each line
    feed. *)
Theorem readlines_unlines text :
  plain_text text = true →
  unlines (readlines text) = text
  ∧ Forall (λ line, line_shape line = true) (readlines text).
Proof. intros _. apply readlines_parts. Qed.

End ExtractionMore.

Section EmissionMore.

Import Re.
Implicit Types (proc a b s : string) (l : list string).

Lemma all_app cls s s' : all cls (s +:+ s') = all cls s && all cls s'.
Proof.
  induction s as [|c s IH]; [done|].
  rewrite app_cons. simpl. by rewrite IH, andb_assoc.
Qed.

Lemma upper_char_word c : is_word c = true → is_word (upper_char c) = true.
Proof. destruct c as [[] [] [] [] [] [] [] []]; vm_compute; congruence. Qed.

Lemma upper_word s : all is_word s = true → all is_word (upper s) = true.
Proof.
  induction s as [|c s IH]; [done|]. simpl.
  intros [Hc Hs]%andb_true_iff. by rewrite upper_char_word, IH.
Qed.

Lemma slice2_word s : all is_word s = true → all is_word (slice2 s) = true.
Proof.
  destruct s as [|a [|b s]]; [done..|]. simpl.
  by intros [_ [_ Hs]%andb_true_iff]%andb_true_iff.
Qed.

(** X6: the names written for a declaration made of word characters are
    made of word characters. *)
Theorem proc_t_words proc :
  all is_word proc = true →
  all is_word (p (proc_t proc)) = true
  ∧ all is_word (p_s (proc_t proc)) = true
  ∧ all is_word (p_t (proc_t proc)) = true.
Proof.
  intros Hw. simpl. split; [done|]. split.
  - rewrite all_app, slice2_word by done. done.
  - rewrite !all_app, upper_word by done. done.
Qed.

Lemma slice2_prefixed a b :
  gl_prefixed a = true → gl_prefixed b = true → slice2 a = slice2 b → a = b.
Proof.
  destruct a as [|a1 [|a2 a]]; [done..|]. destruct b as [|b1 [|b2 b]]; [done..|].
  simpl. intros [->%Ascii.eqb_eq ->%Ascii.eqb_eq]%andb_true_iff.
  intros [->%Ascii.eqb_eq ->%Ascii.eqb_eq]%andb_true_iff. by intros ->.
Qed.

Lemma p_s_prefixed a b :
  gl_prefixed a = true → gl_prefixed b = true →
  p_s (proc_t a) = p_s (proc_t b) → a = b.
Proof.
  intros Ha Hb Heq. apply slice2_prefixed; [done..|].
  simpl in Heq. by apply (inj (String.app "gl3w")) in Heq.
Qed.

(** X7: distinct declarations that all carry the prefix get distinct
    members. *)
Theorem member_names_NoDup l :
  NoDup l → Forall (λ proc, gl_prefixed proc = true) l →
  NoDup (Loader.member_names l).
Proof.
  intros Hnd Hgl. unfold Loader.member_names.
  apply NoDup_fmap_2_strong; [|done].
  intros a b Ha Hb. rewrite Forall_forall in Hgl.
  apply p_s_prefixed; by apply Hgl.
Qed.

Lemma length_spaces n : String.length (spaces n) = n.
Proof. induction n; simpl; congruence. Qed.

Lemma length_append s s' :
  String.length (s +:+ s') = String.length s + String.length s'.
Proof. induction s as [|c s IH]; [done|]. rewrite app_cons. simpl. by rewrite IH. Qed.

Lemma app_empty_r s : s +:+ EmptyString = s.
Proof. induction s as [|c s IH]; [done|]. by rewrite app_cons, IH. Qed.

Lemma all_spaces n : all (λ c, Ascii.eqb c " "%char) (spaces n) = true.
Proof. induction n; [done|]. simpl. done. Qed.

(** X8: padding fills up to the width with spaces and never cuts. *)
Theorem ljust_spec width s :
  String.length (ljust width s) = width `max` String.length s
  ∧ (∃ pad, ljust width s = s +:+ pad
            ∧ all (λ c, Ascii.eqb c " "%char) pad = true)
  ∧ (width ≤ String.length s → ljust width s = s).
Proof.
  unfold ljust. rewrite length_append, length_spaces. split; [lia|]. split.
  - eexists. split; [done|]. apply all_spaces.
  - intros Hle. replace (width - String.length s) with 0 by lia.
    apply app_empty_r.
Qed.

Lemma write_each_app line l1 l2 :
  write_each line (l1 ++ l2) = write_each line l1 +:+ write_each line l2.
Proof.
  induction l1 as [|x l1 IH]; [done|].
  unfold write_each in *. simpl. by rewrite IH, app_assoc'.
Qed.

Lemma write_each_contains line l proc :
  proc ∈ l → contains (write_each line l) (line proc).
Proof.
  intros (l1 & l2 & ->)%list_elem_of_split.
  exists (write_each line l1), (write_each line l2).
  by rewrite write_each_app.
Qed.

Lemma contains_app_l s s' sub : contains s sub → contains (s +:+ s') sub.
Proof.
  intros (before & after & ->). exists before, (after +:+ s').
  by rewrite !app_assoc'.
Qed.

Lemma contains_app_r s s' sub : contains s' sub → contains (s +:+ s') sub.
Proof.
  intros (before & after & ->). exists (s +:+ before), after.
  by rewrite !app_assoc'.
Qed.

(** X9: every declaration has its member line and its macro line in the
    header and its resolution line in the source file. *)
Theorem every_declaration_emitted l proc :
  proc ∈ l →
  contains (gl3w_h l) (h_member proc)
  ∧ contains (gl3w_h l) (h_macro proc)
  ∧ contains (gl3w_c l) (c_resolve proc).
Proof.
  intros Hin. unfold gl3w_h, gl3w_c. repeat split.
  - do 2 apply contains_app_r. apply contains_app_l.
    by apply write_each_contains.
  - do 4 apply contains_app_r. apply contains_app_l.
    by apply write_each_contains.
  - do 3 apply contains_app_r. apply contains_app_l.
    by apply write_each_contains.
Qed.
End EmissionMore.

(** * More about the script *)

Section ScriptMore.

Import Script ScriptSteps.
Implicit Types (w : world) (web : option string) (path text : string).

Lemma run_steps web w :
  run web w
  = w ← ensure_dir ["include"] "include/GL" w;
    w ← ensure_dir [] "src" w;
    w ← fetch web w;
    generate w.
Proof. reflexivity. Qed.

Lemma is_dir_union (S : gset string) w path :
  bool_decide (path ∈ S ∪ dirs w) = bool_decide (path ∈ S) || is_dir w path.
Proof.
  unfold is_dir. apply eq_true_iff_eq.
  rewrite orb_true_iff, !bool_decide_eq_true, elem_of_union. done.
Qed.

(** What making sure of a directory changes: nothing, or the directory and
    its ancestors are added. *)
Lemma ensure_dir_Some ancestors dir w w' :
  ensure_dir ancestors dir w = Some w' →
  files w' = files w ∧ stdout w' = stdout w
  ∧ ∀ path,
      is_dir w' path
      = (negb (path_exists w dir) && bool_decide (path ∈ dir :: ancestors))
        || is_dir w path.
Proof.
  unfold ensure_dir, makedirs. destruct (path_exists w dir).
  - intros [= <-]. by repeat split.
  - destruct (existsb _ _); [done|]. intros [= <-]. cbn [files stdout].
    repeat split. intros path. unfold is_dir at 1. cbn [dirs negb andb].
    rewrite is_dir_union. f_equal. apply bool_decide_ext.
    rewrite elem_of_union, elem_of_singleton, elem_of_list_to_set, elem_of_cons.
    done.
Qed.

Lemma ensure_dir_is_Some ancestors dir w :
  is_Some (ensure_dir ancestors dir w)
  ↔ path_exists w dir = true ∨ existsb (is_file w) ancestors = false.
Proof.
  unfold ensure_dir, makedirs. destruct (path_exists w dir).
  - split; eauto.
  - destruct (existsb _ _).
    + split; [by intros [? ?]|by intros [?|?]].
    + split; eauto.
Qed.

Lemma fetch_Some web w w' :
  fetch web w = Some w' →
  dirs w' = dirs w
  ∧ (∃ line, stdout w' = stdout w ++ [line])
  ∧ files w' !! glcorearb_h
    = (if path_exists w glcorearb_h then files w !! glcorearb_h else web)
  ∧ (∀ path, path ≠ glcorearb_h → files w' !! path = files w !! path)
  ∧ (path_exists w glcorearb_h = true
     ∨ (is_Some web ∧ is_dir w "include/GL" = true
        ∧ is_dir w glcorearb_h = false)).
Proof.
  unfold fetch. destruct (path_exists w glcorearb_h) eqn:Hex.
  - intros [= <-]. simpl. repeat split; eauto.
  - destruct web as [body|]; [|done]. simpl.
    intros (Hd & Hin & ->)%write_file_Some. simpl.
    rewrite lookup_insert_eq. repeat split; eauto.
    intros path Hne. by rewrite lookup_insert_ne.
Qed.

Lemma generate_Some w w' :
  generate w = Some w' →
  ∃ text,
    files w !! glcorearb_h = Some text
    ∧ is_dir w glcorearb_h = false
    ∧ is_dir w "include/GL" = true ∧ is_dir w gl3w_h_path = false
    ∧ is_dir w "src" = true ∧ is_dir w gl3w_c_path = false
    ∧ w' = World (dirs w)
             (<[gl3w_c_path := gl3w_c (procs text)]>
                (<[gl3w_h_path := gl3w_h (procs text)]> (files w)))
             (stdout w
                ++ ["Parsing glcorearb.h header...";
                    "Generating gl3w.h in include/GL...";
                    "Generating gl3w.c in src..."]).
Proof.
  unfold generate. cbv zeta.
  destruct (read_file _ _) as [text|] eqn:Hread; [|done].
  apply read_file_Some in Hread as [Hin Htext]. simpl.
  destruct (write_file "include/GL" _ _ _) as [w1|] eqn:Hw1; [|done]. simpl.
  apply write_file_Some in Hw1 as (Hgl & Hh & ->).
  intros (Hsrc & Hc & ->)%write_file_Some. exists text.
  unfold is_dir in *. simpl in *. rewrite <- !app_assoc. by repeat split.
Qed.

Lemma generate_is_Some w text :
  files w !! glcorearb_h = Some text → is_dir w glcorearb_h = false →
  is_dir w "include/GL" = true → is_dir w gl3w_h_path = false →
  is_dir w "src" = true → is_dir w gl3w_c_path = false →
  is_Some (generate w).
Proof.
  intros Htext Hin Hgl Hh Hsrc Hc.
  unfold generate, read_file, write_file, is_dir in *. simpl.
  rewrite Hin, Htext. simpl. rewrite Hgl, Hh. simpl. rewrite Hsrc, Hc. simpl.
  eauto.
Qed.

Lemma is_file_lookup w path : is_file w path = true ↔ is_Some (files w !! path).
Proof. unfold is_file. apply bool_decide_eq_true. Qed.

(** The two directory steps together. *)
Lemma ensure_dirs_Some w w1 w2 :
  ensure_dir ["include"] "include/GL" w = Some w1 →
  ensure_dir [] "src" w1 = Some w2 →
  files w2 = files w ∧ stdout w2 = stdout w
  ∧ dirs w ⊆ dirs w2
  ∧ is_dir w2 "include/GL"
    = negb (path_exists w "include/GL") || is_dir w "include/GL"
  ∧ is_dir w2 "src" = negb (path_exists w "src") || is_dir w "src"
  ∧ is_dir w2 glcorearb_h = is_dir w glcorearb_h
  ∧ is_dir w2 gl3w_h_path = is_dir w gl3w_h_path
  ∧ is_dir w2 gl3w_c_path = is_dir w gl3w_c_path
  ∧ path_exists w2 glcorearb_h = path_exists w glcorearb_h.
Proof.
  intros (Hf1 & Ho1 & Hd1)%ensure_dir_Some (Hf2 & Ho2 & Hd2)%ensure_dir_Some.
  assert (path_exists w1 "src" = path_exists w "src") as Hsrc.
  { unfold path_exists, is_file. rewrite Hf1, Hd1.
    by rewrite (bool_decide_eq_false_2 ("src" ∈ _)), andb_false_r by
      (apply (bool_decide_unpack _); vm_compute; exact I). }
  assert (∀ path, is_dir w path = true → is_dir w2 path = true) as Hmono.
  { intros path Hp. by rewrite Hd2, Hd1, Hp, !orb_true_r. }
  repeat split.
  - congruence.
  - congruence.
  - intros path Hp. specialize (Hmono path). unfold is_dir in Hmono.
    rewrite !bool_decide_eq_true in Hmono. auto.
  - rewrite Hd2, Hd1, Hsrc.
    rewrite (bool_decide_eq_false_2 ("include/GL" ∈ ["src"])) by
      (apply (bool_decide_unpack _); vm_compute; exact I).
    rewrite (bool_decide_eq_true_2 ("include/GL" ∈ _)) by
      (apply (bool_decide_unpack _); vm_compute; exact I).
    by rewrite andb_false_r, andb_true_r.
  - rewrite Hd2, Hd1, Hsrc.
    rewrite (bool_decide_eq_true_2 ("src" ∈ ["src"])) by
      (apply (bool_decide_unpack _); vm_compute; exact I).
    rewrite (bool_decide_eq_false_2 ("src" ∈ _)) by
      (apply (bool_decide_unpack _); vm_compute; exact I).
    by rewrite andb_false_r, andb_true_r.
  - rewrite Hd2, Hd1.
    rewrite !(bool_decide_eq_false_2 (glcorearb_h ∈ _)) by
      (apply (bool_decide_unpack _); vm_compute; exact I).
    by rewrite !andb_false_r.
  - rewrite Hd2, Hd1.
    rewrite !(bool_decide_eq_false_2 (gl3w_h_path ∈ _)) by
      (apply (bool_decide_unpack _); vm_compute; exact I).
    by rewrite !andb_false_r.
  - rewrite Hd2, Hd1.
    rewrite !(bool_decide_eq_false_2 (gl3w_c_path ∈ _)) by
      (apply (bool_decide_unpack _); vm_compute; exact I).
    by rewrite !andb_false_r.
  - unfold path_exists, is_file. rewrite Hf2, Hf1, Hd2, Hd1.
    rewrite !(bool_decide_eq_false_2 (glcorearb_h ∈ _)) by
      (apply (bool_decide_unpack _); vm_compute; exact I).
    by rewrite !andb_false_r.
Qed.

Lemma run_Some web w w' :
  run web w = Some w' →
  ∃ w1 w2 w3,
    ensure_dir ["include"] "include/GL" w = Some w1
    ∧ ensure_dir [] "src" w1 = Some w2
    ∧ fetch web w2 = Some w3
    ∧ generate w3 = Some w'.
Proof.
  rewrite run_steps.
  destruct (ensure_dir ["include"] _ w) as [w1|] eqn:H1; [|done]. simpl.
  destruct (ensure_dir [] _ w1) as [w2|] eqn:H2; [|done]. simpl.
  destruct (fetch web w2) as [w3|] eqn:Hf; [|done]. simpl.
  intros Hg. by exists w1, w2, w3.
Qed.


(** X11: when something stands at the path of the input file, the registry
    is not asked: the run is the same whatever it would serve. *)
Theorem run_reuses_input web web' w :
  path_exists w glcorearb_h = true → run web w = run web' w.
Proof.
  intros Hp. rewrite !run_steps.
  destruct (ensure_dir ["include"] _ w) as [w1|] eqn:H1; [|done]. simpl.
  destruct (ensure_dir [] _ w1) as [w2|] eqn:H2; [|done]. simpl.
  destruct (ensure_dirs_Some _ _ _ H1 H2) as (_ & _ & _ & _ & _ & _ & _ & _ & Hex).
  unfold fetch. by rewrite Hex, Hp.
Qed.

(** X12: a run that ends normally removes nothing: the directories are still
    there, every file but the two written is as before, the input file is
    the old one when something stood at its path and the download verbatim
    otherwise, and four lines were printed. *)
Theorem run_preserves web w w' :
  run web w = Some w' →
  dirs w ⊆ dirs w'
  ∧ (∀ path, path ≠ glcorearb_h → path ≠ gl3w_h_path → path ≠ gl3w_c_path →
       files w' !! path = files w !! path)
  ∧ files w' !! glcorearb_h
    = (if path_exists w glcorearb_h then files w !! glcorearb_h else web)
  ∧ ∃ first,
      stdout w'
      = stdout w
        ++ [first; "Parsing glcorearb.h header...";
            "Generating gl3w.h in include/GL..."; "Generating gl3w.c in src..."].
Proof.
  intros (w1 & w2 & w3 & H1 & H2 & Hf & Hg)%run_Some.
  destruct (ensure_dirs_Some _ _ _ H1 H2)
    as (Hfiles & Hout & Hdirs & _ & _ & _ & _ & _ & Hex).
  apply fetch_Some in Hf as (Hd3 & [first Ho3] & Hin3 & Hother & _).
  apply generate_Some in Hg as (text & _ & _ & _ & _ & _ & _ & ->). simpl.
  split; [by rewrite Hd3|]. split; [|split].
  - intros path Hin Hh Hc. rewrite !lookup_insert_ne by done.
    by rewrite Hother, Hfiles.
  - rewrite !lookup_insert_ne by done. by rewrite Hin3, Hex, Hfiles.
  - exists first. rewrite Ho3, Hout, <- app_assoc. done.
Qed.
End ScriptMore.

(** * More about the emitted loader *)

Section LoaderMore.

Import Loader.
Local Open Scope Z_scope.

Variable procs : list string.
Variable platform_sym : string → Z.
Variable get_integerv : Z → Z → Z → Z.
Variables GL_MAJOR_VERSION GL_MINOR_VERSION : Z.

Local Abbreviation member_names := (member_names procs).
Local Abbreviation memset0 := (memset0 procs).
Local Abbreviation resolved := (resolved procs platform_sym).
Local Abbreviation gl3wInit :=
  (gl3wInit procs platform_sym get_integerv GL_MAJOR_VERSION
     GL_MINOR_VERSION).
Local Abbreviation gl3wShutdown := (gl3wShutdown procs).
Local Abbreviation init_unfold :=
  (gl3wInit_unfold procs platform_sym get_integerv GL_MAJOR_VERSION
     GL_MINOR_VERSION).

Lemma gl3wIsSupported_1 context major' minor' :
  gl3wIsSupported context major' minor' = 1
  ↔ 3 ≤ major context
    ∧ (major' < major context
       ∨ (major' = major context ∧ minor' ≤ minor context)).
Proof.
  unfold gl3wIsSupported.
  destruct (major context <? 3) eqn:H3.
  - apply Z.ltb_lt in H3. split; [done|lia].
  - apply Z.ltb_ge in H3. destruct (major context =? major') eqn:Heq.
    + apply Z.eqb_eq in Heq. rewrite Z.geb_leb.
      destruct (minor' <=? minor context) eqn:Hle.
      * apply Z.leb_le in Hle. split; [lia|done].
      * apply Z.leb_gt in Hle. split; [done|lia].
    + apply Z.eqb_neq in Heq. rewrite Z.geb_leb.
      destruct (major' <=? major context) eqn:Hle.
      * apply Z.leb_le in Hle. split; [lia|done].
      * apply Z.leb_gt in Hle. split; [done|lia].
Qed.

Lemma gl3wIsSupported_0_or_1 context major' minor' :
  gl3wIsSupported context major' minor' = 0
  ∨ gl3wIsSupported context major' minor' = 1.
Proof.
  unfold gl3wIsSupported. destruct (_ <? 3); [by left|].
  destruct (_ =? _); [by destruct (_ >=? _); auto|by destruct (_ >=? _); auto].
Qed.

(** X13: a record that supports a version supports every earlier one. *)
Theorem gl3wIsSupported_downward context major1 minor1 major2 minor2 :
  gl3wIsSupported context major1 minor1 = 1 →
  major2 < major1 ∨ (major2 = major1 ∧ minor2 ≤ minor1) →
  gl3wIsSupported context major2 minor2 = 1.
Proof. rewrite !gl3wIsSupported_1. lia. Qed.

(** X14: the result of [gl3wInit] agrees with later queries. *)
Theorem init_result_agrees_with_query context t res context' t' :
  gl3wInit context t = Some ((res, context'), t') →
  (res = 0 ∨ res = 1)
  ∧ (res = 0 → ∀ major' minor', gl3wIsSupported context' major' minor' = 0)
  ∧ (res = 1 →
     ∀ major' minor',
       gl3wIsSupported context' major' minor' = 1
       ↔ major' < major context'
         ∨ (major' = major context' ∧ minor' ≤ minor context')).
Proof.
  rewrite init_unfold.
  destruct (resolved !! "gl3wGetIntegerv") as [fn|]; [|done].
  destruct (fn =? 0).
  - intros [= <- <- _]. split; [by left|]. split; [done|done].
  - cbv zeta. destruct (_ <? 3) eqn:H3; intros [= <- <- _].
    + split; [by left|]. split; [|done]. intros _ major' minor'.
      unfold gl3wIsSupported. simpl. by rewrite H3.
    + split; [by right|]. split; [done|]. intros _ major' minor'.
      rewrite gl3wIsSupported_1. simpl. apply Z.ltb_ge in H3. tauto.
Qed.

Lemma handles_init_trace u steps :
  handles steps = 0 → handles (u ++ init_trace procs ++ steps) = handles u + 1.
Proof.
  intros Hs. unfold init_trace.
  change (LibOpen :: (Sym <$> procs)) with ([LibOpen] ++ (Sym <$> procs)).
  rewrite !handles_app, handles_Sym, Hs. reflexivity.
Qed.

Lemma gl3wInit_handles context t r t' :
  gl3wInit context t = Some (r, t') → handles t' = handles t + 1.
Proof.
  rewrite init_unfold.
  destruct (resolved !! "gl3wGetIntegerv") as [fn|]; [|done].
  destruct (fn =? 0); cbv zeta; intros [= _ <-].
  - rewrite <- (app_nil_r (init_trace procs)). by apply handles_init_trace.
  - exact (handles_init_trace t
             [GetIntegerv fn GL_MAJOR_VERSION; GetIntegerv fn GL_MINOR_VERSION]
             eq_refl).
Qed.

Lemma gl3wInit_any_record context t context2 t2 :
  fst <$> gl3wInit context t = fst <$> gl3wInit context2 t2.
Proof.
  rewrite !init_unfold.
  destruct (resolved !! "gl3wGetIntegerv") as [fn|]; [|done].
  by destruct (fn =? 0).
Qed.

(** X16: a second [gl3wInit] without a [gl3wShutdown] in between gives the
    same result and record and holds one more handle; one [gl3wShutdown]
    then leaves a handle open. *)
Theorem reinit_leaks_handle context t res context' t' :
  gl3wInit context t = Some ((res, context'), t') →
  ∃ t'',
    gl3wInit context' t' = Some ((res, context'), t'')
    ∧ handles t'' = handles t + 2
    ∧ ∃ closed,
        gl3wShutdown context' t'' = Some (closed, t'' ++ [LibClose])
        ∧ handles (t'' ++ [LibClose]) = handles t + 1.
Proof.
  intros Hinit.
  pose proof (gl3wInit_any_record context' t' context t) as Hsame.
  rewrite Hinit in Hsame. simpl in Hsame.
  destruct (gl3wInit context' t') as [[r t'']|] eqn:Hre; [|done].
  simpl in Hsame. injection Hsame as ->. exists t''.
  apply gl3wInit_handles in Hinit, Hre.
  split; [done|]. split; [lia|]. eexists. split; [reflexivity|].
  rewrite handles_app. change (handles [LibClose]) with (-1). lia.
Qed.

Lemma member_names_Permutation (l l' : list string) :
  l ≡ₚ l' → Loader.member_names l ≡ₚ Loader.member_names l'.
Proof. intros H. unfold Loader.member_names. by rewrite H. Qed.

Lemma resolved_Permutation (l l' : list string) :
  l ≡ₚ l' → NoDup (Loader.member_names l) →
  Loader.resolved l platform_sym = Loader.resolved l' platform_sym.
Proof.
  intros Hperm Hnd.
  assert (NoDup (Loader.member_names l')) as Hnd'.
  { by rewrite <- (member_names_Permutation l l'). }
  apply map_eq. intros name.
  destruct (decide (name ∈ Loader.member_names l)) as [Hin|Hnin].
  - pose proof Hin as (proc & -> & Hproc)%list_elem_of_fmap.
    rewrite !resolved_lookup; [done|done| |done|done].
    by rewrite <- Hperm.
  - pose proof (resolved_is_Some l platform_sym get_integerv 0 name) as H1.
    pose proof (resolved_is_Some l' platform_sym get_integerv 0 name) as H2.
    rewrite <- (member_names_Permutation l l' Hperm) in H2.
    destruct (Loader.resolved l platform_sym !! name) as [v|] eqn:E1.
    { destruct Hnin. apply H1. eauto. }
    destruct (Loader.resolved l' platform_sym !! name) as [v|] eqn:E2; [|done].
    destruct Hnin. apply H2. eauto.
Qed.

(** X17: the order of the declarations does not matter to the result of
    [gl3wInit] or to the record it leaves. *)
Theorem init_order_independent procs' context context2 t t2 :
  procs ≡ₚ procs' → NoDup member_names →
  fst <$> gl3wInit context t
  = fst <$> Loader.gl3wInit procs' platform_sym get_integerv GL_MAJOR_VERSION
              GL_MINOR_VERSION context2 t2.
Proof.
  intros Hperm Hnd. rewrite !gl3wInit_unfold.
  rewrite <- (resolved_Permutation procs procs') by done.
  destruct (resolved !! "gl3wGetIntegerv") as [fn|]; [|done].
  by destruct (fn =? 0).
Qed.

End LoaderMore.

(** * The platform sections *)

Section PlatformFacts.

Import Platform.
Local Open Scope Z_scope.

Variable os : list call → call → Z.
Variables RTLD_LAZY RTLD_GLOBAL : Z.

Local Abbreviation latest_open := (latest_open os).
Local Abbreviation handles_current := (handles_current os).

Lemma latest_open_app seen h l1 l2 :
  latest_open seen h (l1 ++ l2)
  = latest_open (seen ++ l1) (latest_open seen h l1) l2.
Proof.
  revert seen h. induction l1 as [|c l1 IH]; intros seen h; simpl.
  - by rewrite app_nil_r.
  - rewrite IH. by rewrite <- app_assoc.
Qed.

Lemma handles_current_app seen h l1 l2 :
  handles_current seen h (l1 ++ l2)
  ↔ handles_current seen h l1
    ∧ handles_current (seen ++ l1) (latest_open seen h l1) l2.
Proof.
  revert seen h. induction l1 as [|c l1 IH]; intros seen h; simpl.
  - rewrite app_nil_r. tauto.
  - rewrite IH, <- app_assoc. simpl. tauto.
Qed.

Local Abbreviation in_step := (in_step os).

Lemma win32_step_in_step st o : in_step st → in_step (win32_step os st o).
Proof.
  intros [Hl Hc]. unfold in_step, Platform.in_step.
  destruct o as [| |proc]; simpl.
  - unfold win32_libgl_open, ask. simpl.
    rewrite latest_open_app, handles_current_app. simpl. done.
  - unfold win32_libgl_close, ask. simpl.
    rewrite latest_open_app, handles_current_app. simpl. by rewrite <- Hl.
  - unfold win32_libgl_sym, ask. simpl.
    destruct (_ =? 0); simpl;
      rewrite ?latest_open_app, ?handles_current_app; simpl;
      rewrite ?latest_open_app, ?handles_current_app; simpl;
      by rewrite <- ?Hl.
Qed.

Lemma posix_step_in_step st o :
  in_step st → in_step (posix_step os RTLD_LAZY RTLD_GLOBAL st o).
Proof.
  intros [Hl Hc]. unfold in_step, Platform.in_step.
  destruct o as [| |proc]; simpl.
  - unfold posix_libgl_open, ask. simpl.
    rewrite latest_open_app, handles_current_app. simpl. done.
  - unfold posix_libgl_close, ask. simpl.
    rewrite latest_open_app, handles_current_app. simpl. by rewrite <- Hl.
  - unfold posix_libgl_sym, ask. simpl.
    destruct (_ =? 0); simpl;
      rewrite ?latest_open_app, ?handles_current_app; simpl;
      rewrite ?latest_open_app, ?handles_current_app; simpl;
      by rewrite <- ?Hl.
Qed.

Lemma foldl_in_step (step : state → op → state) ops st :
  (∀ st o, in_step st → in_step (step st o)) →
  in_step st → in_step (foldl step st ops).
Proof.
  intros Hstep. revert st. induction ops as [|o ops IH]; intros st Hst; [done|].
  simpl. apply IH. by apply Hstep.
Qed.

(** X18: whatever the order of opens, closes and lookups since the start of
    the program, the handle given to the system is always the one the
    latest open returned (null before the first); no other opened handle
    is ever released or searched. *)
Theorem libgl_is_latest_handle ops :
  let st_w := foldl (win32_step os) initial ops in
  let st_x := foldl (posix_step os RTLD_LAZY RTLD_GLOBAL) initial ops in
  libgl st_w = latest_open [] 0 (calls st_w)
  ∧ handles_current [] 0 (calls st_w)
  ∧ libgl st_x = latest_open [] 0 (calls st_x)
  ∧ handles_current [] 0 (calls st_x).
Proof.
  assert (in_step initial) as H0 by done.
  destruct (foldl_in_step (win32_step os) ops initial
              win32_step_in_step H0) as [? ?].
  destruct (foldl_in_step (posix_step os RTLD_LAZY RTLD_GLOBAL) ops initial
              posix_step_in_step H0) as [? ?].
  done.
Qed.

End PlatformFacts.

(** * The Apple section *)

Section AppleFacts.

Import Loader.
Local Open Scope Z_scope.

Variable os : list Apple.call → Apple.call → Z.
Variable NDEBUG : bool.
Variable procs : list string.
Variable platform_sym : string → Z.
Variable get_integerv : Z → Z → Z → Z.
Variables GL_MAJOR_VERSION GL_MINOR_VERSION : Z.

Local Abbreviation member_names := (member_names procs).
Local Abbreviation gl3wInit :=
  (gl3wInit procs platform_sym get_integerv GL_MAJOR_VERSION
     GL_MINOR_VERSION).
Local Abbreviation apple_gl3wInit :=
  (Apple.gl3wInit os NDEBUG procs platform_sym get_integerv GL_MAJOR_VERSION
     GL_MINOR_VERSION).

Local Abbreviation created_bundle := (Apple.created_bundle os).

Lemma apple_libgl_open_unfold st :
  Apple.libgl_open os NDEBUG st
  = if NDEBUG || negb (created_bundle st =? 0)
    then Some (Apple.State (created_bundle st)
                 (os (Apple.calls st)
                    (Apple.CFURLCreateWithFileSystemPath
                       "/System/Library/Frameworks/OpenGL.framework"))
                 (Apple.calls st
                    ++ [Apple.CFURLCreateWithFileSystemPath
                          "/System/Library/Frameworks/OpenGL.framework";
                        Apple.CFBundleCreate
                          (os (Apple.calls st)
                             (Apple.CFURLCreateWithFileSystemPath
                                "/System/Library/Frameworks/OpenGL.framework"))]))
    else None.
Proof.
  unfold Apple.libgl_open, Apple.ask, Apple.created_bundle. simpl.
  by rewrite <- app_assoc.
Qed.


End AppleFacts.



(** * The added statements at the small instance *)

Lemma init_4_5 :
  Loader.gl3wInit two_procs all_resolve version_4_5 GL_MAJOR_VERSION_821B
    GL_MINOR_VERSION_821C stale []
  = Some ((1%Z, context_4_5), trace_4_5).
Proof. vm_compute. reflexivity. Defined.

Lemma p_match_Some_witness :
  ∃ skipped blank rest,
    glClear_line
    = "GLAPI" +:+ skipped +:+ "APIENTRY" +:+ blank +:+ "glClear" +:+ rest
    ∧ Re.all Re.is_dot skipped = true.
Proof.
  destruct (p_match_Some glClear_line "glClear" eq_refl eq_refl)
    as (skipped & blank & rest & Heq & Hdot & _).
  by exists skipped, blank, rest.
Defined.

Lemma p_match_None_witness :
  p_match "typedef void (APIENTRY *GLDEBUGPROC)(GLenum source);" = None
  ↔ ∀ skipped s',
      "typedef void (APIENTRY *GLDEBUGPROC)(GLenum source);"
      = "GLAPI" +:+ skipped +:+ s' →
      Re.all Re.is_dot skipped = true → Re.entry s' = None.
Proof. apply p_match_None. reflexivity. Defined.

Lemma readlines_unlines_witness :
  unlines (readlines (glClear_line +:+ nl +:+ "#endif"))
  = glClear_line +:+ nl +:+ "#endif"
  ∧ Forall (λ line, line_shape line = true)
      (readlines (glClear_line +:+ nl +:+ "#endif")).
Proof. apply readlines_unlines. reflexivity. Defined.


Lemma procs_names_are_words_witness :
  Re.nonempty "glClear" = true ∧ Re.all Re.is_word "glClear" = true.
Proof.
  apply (procs_names_are_words glClear_line "glClear"); [reflexivity|].
  apply (bool_decide_unpack _). vm_compute. exact I.
Defined.

Lemma procs_of_lines_matching_only_witness :
  procs_of_lines two_lines
  = procs_of_lines [glClear_line; "GLAPI void APIENTRY glGetIntegerv (void);"].
Proof.
  apply procs_of_lines_matching_only.
  change (["glGetIntegerv"; "glClear"] ≡ₚ ["glClear"; "glGetIntegerv"]).
  apply perm_swap.
Defined.

Lemma proc_t_words_witness :
  Re.all Re.is_word (p (proc_t "glClear")) = true
  ∧ Re.all Re.is_word (p_s (proc_t "glClear")) = true
  ∧ Re.all Re.is_word (p_t (proc_t "glClear")) = true.
Proof. apply proc_t_words. reflexivity. Defined.

Lemma member_names_NoDup_witness : NoDup (Loader.member_names two_procs).
Proof.
  apply member_names_NoDup.
  - apply (bool_decide_unpack _). vm_compute. exact I.
  - repeat constructor.
Defined.

Lemma every_declaration_emitted_witness :
  contains (gl3w_h two_procs) (h_member "glClear")
  ∧ contains (gl3w_h two_procs) (h_macro "glClear")
  ∧ contains (gl3w_c two_procs) (c_resolve "glClear").
Proof.
  apply every_declaration_emitted.
  apply (bool_decide_unpack _). vm_compute. exact I.
Defined.

Lemma run_reuses_input_witness :
  Script.run None input_only = Script.run (Some "GLAPI") input_only.
Proof. apply run_reuses_input. vm_compute. reflexivity. Defined.

Lemma run_preserves_witness :
  ∃ w',
    Script.run (Some glClear_line) readme_only = Some w'
    ∧ Script.files w' !! "README" = Some "gl3w"
    ∧ Script.files w' !! Script.glcorearb_h = Some glClear_line.
Proof.
  destruct (Script.run (Some glClear_line) readme_only) as [w'|] eqn:Hrun;
    [|vm_compute in Hrun; discriminate].
  destruct (run_preserves _ _ _ Hrun) as (_ & Hother & Hin & _).
  exists w'. split; [reflexivity|]. split.
  - rewrite Hother by discriminate. vm_compute. reflexivity.
  - rewrite Hin. vm_compute. reflexivity.
Defined.

Lemma gl3wIsSupported_downward_witness :
  Loader.gl3wIsSupported context_4_5 3 3 = 1%Z.
Proof.
  apply (gl3wIsSupported_downward context_4_5 4 5 3 3); [reflexivity|].
  left. reflexivity.
Defined.

Lemma init_result_agrees_with_query_witness :
  Loader.gl3wIsSupported context_4_5 4 5 = 1%Z
  ↔ (4 < Loader.major context_4_5
     ∨ (4 = Loader.major context_4_5 ∧ 5 ≤ Loader.minor context_4_5))%Z.
Proof.
  exact (proj2 (proj2 (init_result_agrees_with_query two_procs all_resolve
                         version_4_5 GL_MAJOR_VERSION_821B
                         GL_MINOR_VERSION_821C stale [] 1%Z context_4_5
                         trace_4_5 init_4_5)) eq_refl 4%Z 5%Z).
Defined.

Lemma reinit_leaks_handle_witness :
  ∃ t'',
    Loader.gl3wInit two_procs all_resolve version_4_5 GL_MAJOR_VERSION_821B
      GL_MINOR_VERSION_821C context_4_5 trace_4_5
    = Some ((1%Z, context_4_5), t'')
    ∧ Loader.handles t'' = (Loader.handles [] + 2)%Z.
Proof.
  destruct (reinit_leaks_handle two_procs all_resolve version_4_5
              GL_MAJOR_VERSION_821B GL_MINOR_VERSION_821C stale [] 1%Z
              context_4_5 trace_4_5 init_4_5)
    as (t'' & Hre & Hh & _).
  by exists t''.
Defined.

Lemma init_order_independent_witness :
  fst <$> Loader.gl3wInit two_procs all_resolve version_4_5
            GL_MAJOR_VERSION_821B GL_MINOR_VERSION_821C stale []
  = fst <$> Loader.gl3wInit ["glGetIntegerv"; "glClear"] all_resolve
              version_4_5 GL_MAJOR_VERSION_821B GL_MINOR_VERSION_821C
              context_4_5 trace_4_5.
Proof.
  apply init_order_independent; [apply perm_swap|].
  apply (bool_decide_unpack _). vm_compute. exact I.
Defined.

